(** * SaveArtifactsPlugin.on_agent_output_callback

    A shallow embedding of [src/movie_pitch_agent/save_artifacts_plugin.py].

    The callback walks the Parts of an agent's output message, and for every
    Part that carries inline data it picks a filename, defaults a missing
    MIME type and hands a [copy.copy] of the Part to the artifact service.

    Python objects are mutable and shared, so Parts and Blobs live in a heap
    and are referred to by address; the artifact service is an arbitrary
    heap transformer that may also raise. *)

From Stdlib Require Import String Ascii Decimal DecimalString DecimalNat Sorted.
From stdpp Require Import base option list strings gmap.

Local Open Scope string_scope.
Local Open Scope list_scope.

(** ** Python strings *)

Module Py.

(** [str.isspace] on one character.  Characters are code points below 256;
    the whitespace ones are TAB..CR, FS..US, SPACE, NEL and NBSP. *)
Definition isspace (c : ascii) : bool :=
  let n := nat_of_ascii c in
  (((9 <=? n) && (n <=? 13)) || ((28 <=? n) && (n <=? 32))
   || (n =? 133) || (n =? 160))%nat.

(** [s.lstrip()] *)
Fixpoint lstrip (s : string) : string :=
  match s with
  | EmptyString => EmptyString
  | String c s' => if isspace c then lstrip s' else s
  end.

(** [s.rstrip()] *)
Fixpoint rstrip (s : string) : string :=
  match s with
  | EmptyString => EmptyString
  | String c s' =>
      match rstrip s' with
      | EmptyString => if isspace c then EmptyString else String c EmptyString
      | r => String c r
      end
  end.

(** [s.strip()] *)
Definition strip (s : string) : string := rstrip (lstrip s).

(** Truth value of an [Optional[str]]: [None] and [''] are falsy. *)
Definition truthy (o : option string) : bool :=
  match o with
  | None => false
  | Some EmptyString => false
  | Some (String _ _) => true
  end.

(** [str(i)] for a non-negative [int]. *)
Definition str_of_int (i : nat) : string :=
  NilEmpty.string_of_uint (Nat.to_uint i).

(** [f'{o}'] for an [Optional[str]]. *)
Definition format_opt (o : option string) : string :=
  match o with
  | None => "None"
  | Some s => s
  end.

(** Every character of [s] is whitespace. *)
Fixpoint all_space (s : string) : bool :=
  match s with
  | EmptyString => true
  | String c s' => isspace c && all_space s'
  end.

(** [s.split(sep)] for a separator of one character: the pieces between
    the occurrences of [sep], of which there is always at least one. *)
Fixpoint split (sep : ascii) (s : string) : list string :=
  match s with
  | EmptyString => [EmptyString]
  | String c s' =>
      if Ascii.eqb c sep then EmptyString :: split sep s'
      else match split sep s' with
           | [] => [String c EmptyString]
           | w :: ws => String c w :: ws
           end
  end.

(** [sep.join(l)] *)
Fixpoint join (sep : string) (l : list string) : string :=
  match l with
  | [] => EmptyString
  | [w] => w
  | w :: ws => w +:+ sep +:+ join sep ws
  end.

(** [s.count(c)] for one character [c]. *)
Fixpoint count (c : ascii) (s : string) : nat :=
  match s with
  | EmptyString => 0
  | String x s' => (if Ascii.eqb x c then 1 else 0) + count c s'
  end.

(** [str.lower] on one character below 256: the letters A to Z and the
    capital letters of Latin-1 have a lower case, 32 further on. *)
Definition lower_char (c : ascii) : ascii :=
  let n := nat_of_ascii c in
  if (((65 <=? n) && (n <=? 90)) || ((192 <=? n) && (n <=? 214))
      || ((216 <=? n) && (n <=? 222)))%nat
  then ascii_of_nat (n + 32)
  else c.

(** [s.lower()] *)
Fixpoint lower (s : string) : string :=
  match s with
  | EmptyString => EmptyString
  | String c s' => String (lower_char c) (lower s')
  end.

(** [s.startswith(p)] *)
Fixpoint startswith (p s : string) : bool :=
  match p, s with
  | EmptyString, _ => true
  | String _ _, EmptyString => false
  | String a p', String b s' => Ascii.eqb a b && startswith p' s'
  end.

(** [p in s]: [p] occurs in [s] at some position. *)
Fixpoint contains (p s : string) : bool :=
  startswith p s ||
  match s with
  | EmptyString => false
  | String _ s' => contains p s'
  end.

End Py.

(** ** The data model of [google.genai.types] *)

(** Addresses of heap objects. *)
Abbreviation loc := nat.

(** [types.Blob]: the inline data of a Part. *)
Record Blob := mkBlob {
  data : option (list Byte.byte);
  mime_type : option string;
  display_name : option string;
}.

(** [types.Part]: [text] is plain content, [inline_data] refers to a [Blob]
    object.  The callback reads [inline_data] only. *)
Record Part := mkPart {
  text : option string;
  inline_data : option loc;
}.

(** [types.Content]: [parts] is a list of references to [Part] objects. *)
Record Content := mkContent {
  role : option string;
  parts : option (list loc);
}.

(** An address that holds no object reads as an object with every field
    unset; Python itself never produces such a reference. *)
Global Instance Blob_inhabited : Inhabited Blob := populate (mkBlob None None None).
Global Instance Part_inhabited : Inhabited Part := populate (mkPart None None).

Record Heap := mkHeap {
  part_objs : gmap loc Part;
  blob_objs : gmap loc Blob;
}.

Definition get_part (h : Heap) (p : loc) : Part := part_objs h !!! p.
Definition get_blob (h : Heap) (l : loc) : Blob := blob_objs h !!! l.

Definition set_blob (l : loc) (b : Blob) (h : Heap) : Heap :=
  mkHeap (part_objs h) (<[l := b]> (blob_objs h)).

(** A new [Part] object is placed at an address that holds none. *)
Definition new_part_loc (h : Heap) : loc := fresh (dom (part_objs h)).

Definition alloc_part (a : loc) (x : Part) (h : Heap) : Heap :=
  mkHeap (<[a := x]> (part_objs h)) (blob_objs h).

(** ** Exceptions, logging and the artifact service *)

(** An instance of Python's [Exception]; [exc_str] is [str(e)]. *)
Record Exception := mkException { exc_str : string }.

(** What a [raise] carries: an instance of [Exception], or an instance of
    [BaseException] that is no [Exception], such as
    [asyncio.CancelledError] or [KeyboardInterrupt], known by the name of
    its class. *)
Inductive BaseException :=
| IsException (e : Exception)
| NotException (class_name : string).

Inductive Level := INFO | WARNING | ERROR.

Definition LogRecord : Type := Level * string.

(** The keyword arguments of [save_artifact]. *)
Record SaveArgs := mkSaveArgs {
  arg_app_name : string;
  arg_user_id : string;
  arg_session_id : string;
  filename : string;
  artifact : loc;
}.

(** [save_artifact] returns a version number, raises an [Exception], or
    raises a [BaseException] that is no [Exception]: the task awaiting the
    call is cancelled, the interpreter is interrupted. *)
Inductive Outcome :=
| Saved (version : nat)
| Raises (e : Exception)
| RaisesBase (class_name : string).

(** One call of [save_artifact] as the trace records it: the loop index it
    was issued at, its arguments, the fields of the [artifact] object and of
    the Blob it refers to at the moment of the call, and how the call ended. *)
Record SaveCall := mkSaveCall {
  call_index : nat;
  call_args : SaveArgs;
  call_part : Part;
  call_blob : option Blob;
  call_outcome : Outcome;
}.

(** [google.adk.sessions.Session], of which the callback reads [id]. *)
Module Session.
Record t := mk { id : string }.
End Session.

Section Callback.

(** The private state of the artifact service (its storage backend). *)
Context {Σ : Type}.

(** [BaseArtifactService]: [save_artifact] receives its arguments, may read
    and write any object of the heap, updates its own state, and returns or
    raises. *)
Record ArtifactService := mkService {
  save_artifact : SaveArgs → Heap → Σ → Heap * Σ * Outcome;
}.

(** [InvocationContext], with the fields the callback reads. *)
Record InvocationContext := mkContext {
  artifact_service : option ArtifactService;
  invocation_id : string;
  app_name : string;
  user_id : string;
  session : Session.t;
}.

(** What a run of the callback can change: the heap, the state of the
    service, the callback's local flag [modified], the records sent to
    [logger], and the trace of [save_artifact] calls. *)
Record State := mkState {
  heap : Heap;
  store_st : Σ;
  modified : bool;
  log : list LogRecord;
  calls : list SaveCall;
}.

Definition with_heap (h : Heap) (s : State) : State :=
  mkState h (store_st s) (modified s) (log s) (calls s).

(** ** A state monad with exceptions

    A computation either returns a value or raises; the state reached when
    it raises is kept, as nothing is rolled back in Python. *)
Definition M (A : Type) : Type := State → (BaseException + A) * State.

Definition ret {A} (a : A) : M A := λ s, (inr a, s).

Definition bind {A B} (m : M A) (k : A → M B) : M B := λ s,
  match m s with
  | (inl e, s') => (inl e, s')
  | (inr a, s') => k a s'
  end.

Definition raise {A} (e : Exception) : M A := λ s, (inl (IsException e), s).

(** [try: m except Exception as e: handler e].  What [m] raises is handled
    if it is an [Exception]; any other [BaseException] goes on to the
    caller. *)
Definition try_except {A} (m : M A) (handler : Exception → M A) : M A := λ s,
  match m s with
  | (inl (IsException e), s') => handler e s'
  | (inl (NotException class_name), s') => (inl (NotException class_name), s')
  | (inr a, s') => (inr a, s')
  end.

Notation "'do' x <- m ; k" := (bind m (λ x, k))
  (at level 10, x name, m at level 100, k at level 200).
Notation "m ;; k" := (bind m (λ _, k))
  (at level 100, k at level 200, right associativity).

(** *** Primitive operations *)

(** [logger.info], [logger.warning], [logger.error] *)
Definition logger (lvl : Level) (msg : string) : M unit := λ s,
  (inr tt, mkState (heap s) (store_st s) (modified s) (log s ++ [(lvl, msg)]) (calls s)).

(** [modified = b] *)
Definition set_modified (b : bool) : M unit := λ s,
  (inr tt, mkState (heap s) (store_st s) b (log s) (calls s)).

(** [part.inline_data] *)
Definition get_inline_data (part : loc) : M (option loc) := λ s,
  (inr (inline_data (get_part (heap s) part)), s).

Definition AttributeError (attr : string) : Exception :=
  mkException ("'NoneType' object has no attribute '" +:+ attr +:+ "'").

(** The object [part.inline_data] of an attribute access
    [part.inline_data.attr], which raises when [part.inline_data] is [None]. *)
Definition inline_data_of (part : loc) (attr : string) : M loc :=
  do d <- get_inline_data part;
  match d with
  | None => raise (AttributeError attr)
  | Some l => ret l
  end.

(** [part.inline_data.display_name] *)
Definition get_display_name (part : loc) : M (option string) :=
  do l <- inline_data_of part "display_name";
  λ s, (inr (display_name (get_blob (heap s) l)), s).

(** [part.inline_data.mime_type] *)
Definition get_mime_type (part : loc) : M (option string) :=
  do l <- inline_data_of part "mime_type";
  λ s, (inr (mime_type (get_blob (heap s) l)), s).

Definition with_mime_type (v : option string) (b : Blob) : Blob :=
  mkBlob (data b) v (display_name b).

(** [part.inline_data.mime_type = v] *)
Definition set_mime_type (part : loc) (v : string) : M unit :=
  do l <- inline_data_of part "mime_type";
  λ s, (inr tt,
        with_heap (set_blob l (with_mime_type (Some v) (get_blob (heap s) l)) (heap s)) s).

(** [copy.copy(part)]: a new [Part] object with the fields of [part]; the
    [Blob] its [inline_data] refers to is not copied. *)
Definition copy_copy (part : loc) : M loc := λ s,
  let a := new_part_loc (heap s) in
  (inr a, with_heap (alloc_part a (get_part (heap s) part) (heap s)) s).

(** The trace entry of a call with arguments [args] issued in heap [h]. *)
Definition record_call (i : nat) (args : SaveArgs) (h : Heap) (o : Outcome) : SaveCall :=
  let x := get_part h (artifact args) in
  mkSaveCall i args x (get_blob h <$> inline_data x) o.

(** [await service.save_artifact(...)], issued at loop index [i]. *)
Definition await_save_artifact (service : ArtifactService) (i : nat)
    (args : SaveArgs) : M nat := λ s,
  let '(h', σ', o) := save_artifact service args (heap s) (store_st s) in
  let s' := mkState h' σ' (modified s) (log s)
                    (calls s ++ [record_call i args (heap s) o]) in
  match o with
  | Saved v => (inr v, s')
  | Raises e => (inl (IsException e), s')
  | RaisesBase class_name => (inl (NotException class_name), s')
  end.

(** ** The callback *)

(** [f'artifact_{invocation_context.invocation_id}_{i}.txt'] *)
Definition generated_filename (ctx : InvocationContext) (i : nat) : string :=
  "artifact_" +:+ invocation_id ctx +:+ "_" +:+ Py.str_of_int i +:+ ".txt".

(** [not m or m.strip() == ''] *)
Definition mime_type_missing (m : option string) : bool :=
  match m with
  | None => true
  | Some s => negb (Py.truthy (Some s)) || String.eqb (Py.strip s) ""
  end.

(** The body of the [try] statement for the Part at index [i]. *)
Definition try_body (ctx : InvocationContext) (service : ArtifactService)
    (i : nat) (part : loc) : M unit :=
  do name <- get_display_name part;
  do file_name <-
    (if Py.truthy name then ret (default "" name)
     else
       let file_name := generated_filename ctx i in
       logger INFO ("No display_name found, using generated filename: " +:+ file_name);;
       ret file_name);
  do m <- get_mime_type part;
  (if mime_type_missing m then
     logger WARNING ("Empty MIME type for " +:+ file_name +:+ ", using text/plain");;
     set_mime_type part "text/plain"
   else ret tt);;
  do a <- copy_copy part;
  do _ <- await_save_artifact service i
            (mkSaveArgs (app_name ctx) (user_id ctx) (Session.id (session ctx))
                        file_name a);
  set_modified true;;
  do m' <- get_mime_type part;
  logger INFO ("Successfully saved artifact: " +:+ file_name
               +:+ " (" +:+ Py.format_opt m' +:+ ")").

(** The [except Exception as e] handler. *)
Definition except_body (i : nat) (e : Exception) : M unit :=
  logger ERROR ("Failed to save artifact for part " +:+ Py.str_of_int i
                +:+ ": " +:+ exc_str e).

(** One iteration of the loop, for the Part at index [i]. *)
Definition loop_body (ctx : InvocationContext) (service : ArtifactService)
    (i : nat) (part : loc) : M unit :=
  do d <- get_inline_data part;
  match d with
  | None => ret tt
  | Some _ => try_except (try_body ctx service i part) (except_body i)
  end.

(** [for i, part in enumerate(ps): body], the index starting at [i]. *)
Fixpoint for_enumerate (body : nat → loc → M unit) (i : nat) (ps : list loc) : M unit :=
  match ps with
  | [] => ret tt
  | part :: ps' => body i part;; for_enumerate body (S i) ps'
  end.

(** [SaveArtifactsPlugin.on_agent_output_callback] *)
Definition on_agent_output_callback (invocation_context : InvocationContext)
    (agent_output : Content) : M (option Content) :=
  match artifact_service invocation_context with
  | None =>
      logger WARNING
        "Artifact service is not set. SaveArtifactsPlugin will not be enabled.";;
      ret None
  | Some service =>
      match parts agent_output with
      | None | Some [] => ret None
      | Some ps =>
          set_modified false;;
          for_enumerate (loop_body invocation_context service) 0 ps;;
          ret None
      end
  end.

End Callback.

Arguments ArtifactService Σ : clear implicits.
Arguments InvocationContext Σ : clear implicits.
Arguments State Σ : clear implicits.
Arguments M Σ A : clear implicits.

(** ** What one run does, in closed form *)

Section Summary.

Context {Σ : Type}.
Implicit Types (ctx : InvocationContext Σ) (service : ArtifactService Σ).
Implicit Types (s : State Σ) (h : Heap) (b : Blob) (ps : list loc).

(** The filename chosen for a Blob met at index [i]. *)
Definition chosen_filename ctx (i : nat) b : string :=
  if Py.truthy (display_name b) then default "" (display_name b)
  else generated_filename ctx i.

(** The Blob after the MIME type check. *)
Definition default_mime_type b : Blob :=
  if mime_type_missing (mime_type b) then with_mime_type (Some "text/plain") b
  else b.

(** The heap after the MIME type check on the Blob at [l]. *)
Definition defaulted_heap (l : loc) h : Heap :=
  if mime_type_missing (mime_type (get_blob h l))
  then set_blob l (with_mime_type (Some "text/plain") (get_blob h l)) h
  else h.

(** The heap in which [save_artifact] is called for the Part at [part] whose
    inline data is at [l]: the MIME type is defaulted, the copy is allocated. *)
Definition heap_at_call (part l : loc) h : Heap :=
  let h1 := defaulted_heap l h in
  alloc_part (new_part_loc h1) (get_part h1 part) h1.

(** The arguments [save_artifact] is called with. *)
Definition args_at_call ctx (i : nat) (l : loc) h : SaveArgs :=
  mkSaveArgs (app_name ctx) (user_id ctx) (Session.id (session ctx))
             (chosen_filename ctx i (get_blob h l)) (new_part_loc h).

(** The state the service leaves, and the outcome of the call. *)
Definition after_call ctx service (i : nat) (part l : loc) s : Heap * Σ * Outcome :=
  save_artifact service (args_at_call ctx i l (heap s))
                (heap_at_call part l (heap s)) (store_st s).

(** The records logged before the call. *)
Definition log_before_call ctx (i : nat) b : list LogRecord :=
  (if Py.truthy (display_name b) then []
   else [(INFO, "No display_name found, using generated filename: "
                +:+ generated_filename ctx i)]) ++
  (if mime_type_missing (mime_type b)
   then [(WARNING, "Empty MIME type for " +:+ chosen_filename ctx i b
                   +:+ ", using text/plain")]
   else []).

(** The state in which the loop of the callback arrives at index [i]; if
    the loop ends before it gets there, the state in which it ends. *)
Definition loop_state ctx service ps (i : nat) s : State Σ :=
  (for_enumerate (loop_body ctx service) 0 (take i ps) (set_modified false s).2).2.

(** The loop arrives at index [i]: no iteration before raised to the
    caller. *)
Definition arrives ctx service ps (i : nat) s : Prop :=
  (for_enumerate (loop_body ctx service) 0 (take i ps) (set_modified false s).2).1
  = inr tt.

(** The calls of [save_artifact] issued during a run of the callback. *)
Definition calls_made ctx (msg : Content) s : list SaveCall :=
  drop (length (calls s)) (calls (on_agent_output_callback ctx msg s).2).

(** Those issued at loop index [i]. *)
Definition calls_for ctx (msg : Content) s (i : nat) : list SaveCall :=
  filter (λ c, call_index c = i) (calls_made ctx msg s).

(** The record the handler logs for a failure at index [i]. *)
Definition error_record (i : nat) (e : Exception) : LogRecord :=
  (ERROR, "Failed to save artifact for part " +:+ Py.str_of_int i +:+ ": " +:+ exc_str e).

(** What the caller can observe of a Part: its text and the fields of its
    inline data. *)
Definition view_part h (part : loc) : option string * option Blob :=
  let x := get_part h part in (text x, get_blob h <$> inline_data x).

(** What the caller can observe of a message. *)
Definition view h (msg : Content) : option (list (option string * option Blob)) :=
  map (view_part h) <$> parts msg.

(** A Part as observed once its inline data went through the MIME type check. *)
Definition defaulted (v : option string * option Blob) : option string * option Blob :=
  (v.1, default_mime_type <$> v.2).

(** Every Part of the message and the Blob it refers to is an object of [h]. *)
Definition wf_part h (part : loc) : Prop :=
  is_Some (part_objs h !! part) ∧
  ∀ l, inline_data (get_part h part) = Some l → is_Some (blob_objs h !! l).

Definition wf_message h (msg : Content) : Prop :=
  Forall (wf_part h) (default [] (parts msg)).

(** A service that leaves the Blobs it finds as they are. *)
Definition keeps_blobs service : Prop :=
  ∀ args h σ, blob_objs h ⊆ blob_objs (save_artifact service args h σ).1.1.

(** A service that leaves the Parts it finds as they are, except for the one
    it is given.  It holds a reference to no other Part. *)
Definition keeps_other_parts service : Prop :=
  ∀ args h σ,
    delete (artifact args) (part_objs h) ⊆ part_objs (save_artifact service args h σ).1.1.

(** A service that may create objects and write the fields of the [Part] it
    is given, and nothing else. *)
Definition store_frame service : Prop :=
  keeps_blobs service ∧ keeps_other_parts service.

(** A service that writes nothing but its argument and what its argument
    refers to: the [Part] object it is given and that Part's Blob. *)
Definition writes_through_argument service : Prop :=
  ∀ args h σ,
    let h' := (save_artifact service args h σ).1.1 in
    (∀ q, q ≠ artifact args → part_objs h' !! q = part_objs h !! q) ∧
    (∀ l, inline_data (get_part h (artifact args)) ≠ Some l →
          blob_objs h' !! l = blob_objs h !! l).

(** The heap [h] after some iterations started in [h0]: the Parts of [h0]
    are as they were, its Blobs are as they were or went through the MIME
    type check. *)
Definition heap_evolves h0 h : Prop :=
  part_objs h0 ⊆ part_objs h ∧
  ∀ l b, blob_objs h0 !! l = Some b →
         blob_objs h !! l = Some b ∨ blob_objs h !! l = Some (default_mime_type b).

(** A display name that is absent or the empty string. *)
Definition absent_or_empty (n : option string) : Prop :=
  n = None ∨ n = Some "".

(** A MIME type that is absent or consists of whitespace only. *)
Definition absent_or_blank (m : option string) : Prop :=
  m = None ∨ ∃ t, m = Some t ∧ Py.all_space t = true.

End Summary.

(** ** Example inputs *)

Module Example.

(** A service that stores the artifact and counts versions. *)
Definition quiet_store : ArtifactService nat :=
  mkService (λ args h n, (h, S n, Saved n)).

(** A service whose backend is down. *)
Definition failing_store : ArtifactService nat :=
  mkService (λ args h n, (h, n, Raises (mkException "backend unavailable"))).

(** A service that releases the bytes once they are stored:
    [artifact.inline_data.data = None]. *)
Definition scrubbing_store : ArtifactService nat :=
  mkService (λ args h n,
    match inline_data (get_part h (artifact args)) with
    | Some l =>
        let b := get_blob h l in
        (set_blob l (mkBlob None (mime_type b) (display_name b)) h, S n, Saved n)
    | None => (h, S n, Saved n)
    end).

Definition ctx_with (service : ArtifactService nat) : InvocationContext nat :=
  mkContext (Some service) "inv1" "movie_pitch" "user" (Session.mk "session1").

Definition ctx_without : InvocationContext nat :=
  mkContext None "inv1" "movie_pitch" "user" (Session.mk "session1").

(** Three Parts: a text, inline data without name and MIME type, and inline
    data with both. *)
Definition example_heap : Heap :=
  mkHeap
    (<[0 := mkPart (Some "hello") None]>
      (<[1 := mkPart None (Some 0)]>
        (<[2 := mkPart None (Some 1)]> ∅)))
    (<[0 := mkBlob (Some (list_byte_of_string "PNGDATA")) (Some "") (Some "")]>
      (<[1 := mkBlob (Some (list_byte_of_string "JPGDATA")) (Some "image/jpeg")
                     (Some "poster.jpg")]> ∅)).

Definition example_state : State nat := mkState example_heap 0 false [] [].

Definition example_msg : Content := mkContent (Some "model") (Some [0; 1; 2]).

Definition text_msg : Content := mkContent (Some "model") (Some [0]).





End Example.

(** ** The trace of a run *)

Section Trace.

Context {Σ : Type}.
Implicit Types (ctx : InvocationContext Σ) (service : ArtifactService Σ).
Implicit Types (s : State Σ) (h : Heap) (b : Blob) (ps : list loc).

(** What tells one call of [save_artifact] from another: the index it was
    issued at, the filename, the fields of the artifact and its Blob. *)
Definition call_summary (c : SaveCall) : nat * string * Part * option Blob :=
  (call_index c, filename (call_args c), call_part c, call_blob c).

(** The calls to expect for the Parts [ps] of a message held in heap [h],
    the first of them at index [i]: one for each Part with inline data. *)
Fixpoint planned_calls ctx h (i : nat) ps : list (nat * string * Part * option Blob) :=
  match ps with
  | [] => []
  | part :: ps' =>
      match inline_data (get_part h part) with
      | None => planned_calls ctx h (S i) ps'
      | Some l =>
          (i, chosen_filename ctx i (get_blob h l), get_part h part,
           Some (default_mime_type (get_blob h l)))
          :: planned_calls ctx h (S i) ps'
      end
  end.




End Trace.

(** ** [config.py]: settings read from the environment

    The module is run once, on import, against [os.environ]; each setting is
    given here as a function of that environment.  [PORT] goes through
    [int] and is not part of the model. *)

Module config.

(** [os.getenv(key, default)] *)
Definition getenv (environ : gmap string string) (key default : string) : string :=
  match environ !! key with
  | Some v => v
  | None => default
  end.

Definition MODEL (environ : gmap string string) : string :=
  getenv environ "MODEL" "gemini-2.5-flash".

Definition HOST (environ : gmap string string) : string :=
  getenv environ "HOST" "0.0.0.0".

Definition ENVIRONMENT (environ : gmap string string) : string :=
  getenv environ "ENVIRONMENT" "development".

Definition SESSION_DB_URL (environ : gmap string string) : string :=
  getenv environ "SESSION_DB_URL" "sqlite:///./sessions.db".

Definition ALLOWED_ORIGINS_STR (environ : gmap string string) : string :=
  getenv environ "ALLOWED_ORIGINS" "*".

(** [[origin.strip() for origin in ALLOWED_ORIGINS_STR.split(",")]] *)
Definition ALLOWED_ORIGINS (environ : gmap string string) : list string :=
  map Py.strip (Py.split "," (ALLOWED_ORIGINS_STR environ)).

(** [os.environ.setdefault(key, value)], as it leaves the environment. *)
Definition setdefault (environ : gmap string string) (key value : string)
    : gmap string string :=
  match environ !! key with
  | Some _ => environ
  | None => <[key := value]> environ
  end.

(** Python's [int] on a string, which the module applies to the value of
    [PORT]: it returns the integer the string denotes or raises
    [ValueError]. *)
Section ModuleBody.

Variable int : string → Exception + Z.

(** [int(os.getenv("PORT", "8010"))] *)
Definition PORT (environ : gmap string string) : Exception + Z :=
  int (getenv environ "PORT" "8010").

(** The body of the module, run from top to bottom by its first import, with
    the environment it leaves.  The one statement that can raise is the
    conversion of [PORT]; [os.environ.setdefault] comes after it and is not
    run if it raised. *)
Definition import_module (environ : gmap string string)
    : (Exception + unit) * gmap string string :=
  match PORT environ with
  | inl e => (inl e, environ)
  | inr _ => (inr tt, setdefault environ "GOOGLE_GENAI_USE_VERTEXAI" "1")
  end.

(** The environment once the module has been imported, or has failed to be. *)
Definition environ_after_import (environ : gmap string string) : gmap string string :=
  (import_module environ).2.

End ModuleBody.

(** [os.getenv("GOOGLE_CLOUD_PROJECT")] *)
Definition GOOGLE_CLOUD_PROJECT (environ : gmap string string) : option string :=
  environ !! "GOOGLE_CLOUD_PROJECT".

Definition GOOGLE_CLOUD_LOCATION (environ : gmap string string) : string :=
  getenv environ "GOOGLE_CLOUD_LOCATION" "us-central1".

Definition ENABLE_CLOUD_LOGGING (environ : gmap string string) : bool :=
  String.eqb (Py.lower (getenv environ "ENABLE_CLOUD_LOGGING" "")) "true".

(** An origin as [ALLOWED_ORIGINS] holds them: no whitespace at either end
    and no comma. *)
Definition clean_origin (o : string) : Prop :=
  Py.lstrip o = o ∧ Py.rstrip o = o ∧ Py.count "," o = 0.

End config.

(** ** [server.py]: the routes of the OpenAPI schema *)

Module server.

(** A route of the application: an [APIRoute] with its path, or another
    kind of route (a mount, a static file route). *)
Inductive Route :=
| APIRoute (path : string)
| OtherRoute (name : string).

(** JSON-like values, as [get_openapi] returns them and the handler builds
    them; a [dict] keeps the order in which its keys were inserted. *)
Inductive json :=
| JNone
| JBool (b : bool)
| JInt (n : Z)
| JFloat (repr : string)
| JStr (s : string)
| JList (l : list json)
| JDict (d : list (string * json)).

(** [d[key]], without the [KeyError] *)
Fixpoint dict_get (key : string) (d : list (string * json)) : option json :=
  match d with
  | [] => None
  | (k, v) :: d' => if String.eqb k key then Some v else dict_get key d'
  end.

(** [d[key] = value]: a key that is present keeps its place. *)
Fixpoint dict_set (key : string) (value : json) (d : list (string * json))
    : list (string * json) :=
  match d with
  | [] => [(key, value)]
  | (k, v) :: d' =>
      if String.eqb k key then (k, value) :: d'
      else (k, v) :: dict_set key value d'
  end.

Definition skip_patterns : list string :=
  ["/tools/mcp"; "/eval-sets"; "/eval_sets"; "/eval-results"; "/eval_results";
   "/eval-cases"; "/eval_cases"].

(** [any(pattern in path for pattern in skip_patterns)] *)
Definition should_skip (path : string) : bool :=
  existsb (λ pattern, Py.contains pattern path) skip_patterns.

(** The first loop: the paths of the API routes. *)
Definition collect_step (all_route_paths : list string) (route : Route) : list string :=
  match route with
  | APIRoute path => all_route_paths ++ [path]
  | OtherRoute _ => all_route_paths
  end.

Definition collect_paths (routes : list Route) : list string :=
  fold_left collect_step routes [].

(** One iteration of the second loop, on [safe_routes] and
    [skipped_routes]. *)
Definition select_step (acc : list Route * list string) (route : Route)
    : list Route * list string :=
  let '(safe_routes, skipped_routes) := acc in
  match route with
  | APIRoute path =>
      if should_skip path then (safe_routes, skipped_routes ++ [path])
      else (safe_routes ++ [route], skipped_routes)
  | OtherRoute _ => (safe_routes ++ [route], skipped_routes)
  end.

(** The second loop. *)
Definition select_routes (routes : list Route) : list Route * list string :=
  fold_left select_step routes ([], []).

(** The keyword arguments of [get_openapi]. *)
Record OpenAPIArgs := mkOpenAPIArgs {
  title : string;
  version : string;
  description : string;
  routes : list Route;
  servers : list json;
}.

Definition openapi_args (safe_routes : list Route) : OpenAPIArgs :=
  mkOpenAPIArgs
    "Google ADK Multi-Agent System API"
    "0.1.0"
    "
            Production-ready API for Google ADK agents with FastAPI and uvicorn.

            ## Features
            - Multi-agent workflows (Sequential, Parallel, Loop patterns)
            - Session management with persistence
            - Artifact storage
            - Real-time agent interaction

            ## Available Agents
            - **movie_pitch_agent**: Movie pitch generation with iterative refinement

            Note: Some internal MCP tool management routes are excluded from this schema.
            "
    safe_routes
    [JDict [("url", JStr "/"); ("description", JStr "Current server")]].

Definition x_logo : json :=
  JDict [("url", JStr "https://www.gstatic.com/devrel-devsite/prod/v2f1fc4f4f8c6f3b3f3f3f3f3f3f3f3f3/cloud/images/favicons/onecloud/super_cloud.png")].

(** What the [try] block can raise: an exception of [get_openapi], or the
    [KeyError] or [TypeError] of [openapi_schema["info"]["x-logo"] = ...]. *)
Inductive Error :=
| Raised (e : Exception)
| KeyError (key : string)
| TypeError (target : json).

(** [openapi_schema["info"]["x-logo"] = x_logo] *)
Definition add_logo (openapi_schema : list (string * json))
    : Error + list (string * json) :=
  match dict_get "info" openapi_schema with
  | None => inl (KeyError "info")
  | Some (JDict info) =>
      inr (dict_set "info" (JDict (dict_set "x-logo" x_logo info)) openapi_schema)
  | Some target => inl (TypeError target)
  end.

(** The minimal schema of the [except] branch. *)
Definition fallback_schema : list (string * json) :=
  [("openapi", JStr "3.0.2");
   ("info", JDict
      [("title", JStr "Google ADK Multi-Agent System API");
       ("version", JStr "0.1.0");
       ("description",
        JStr "API schema generation partially limited due to MCP type constraints")]);
   ("paths", JDict
      [("/health", JDict
          [("get", JDict
              [("summary", JStr "Health Check");
               ("operationId", JStr "health_check");
               ("responses", JDict
                  [("200", JDict
                      [("description", JStr "Successful Response");
                       ("content", JDict
                          [("application/json", JDict
                              [("schema", JDict
                                  [("type", JStr "object");
                                   ("properties", JDict
                                      [("status", JDict [("type", JStr "string")]);
                                       ("environment", JDict [("type", JStr "string")]);
                                       ("version", JDict [("type", JStr "string")]);
                                       ("agents", JDict
                                          [("type", JStr "array");
                                           ("items", JDict [("type", JStr "string")])])])])])])])]);
               ("tags", JList [JStr "monitoring"])])]);
       ("/info", JDict
          [("get", JDict
              [("summary", JStr "Service Information");
               ("operationId", JStr "get_info");
               ("responses", JDict
                  [("200", JDict
                      [("description", JStr "Successful Response");
                       ("content", JDict
                          [("application/json", JDict
                              [("schema", JDict [("type", JStr "object")])])])])]);
               ("tags", JList [JStr "information"])])])])].

(** The calls of [logger], each kept as the data its message is built
    from.  [RoutePaths] and [Traceback] go to [logger.debug], [Failed] to
    [logger.error], the others to [logger.info]. *)
Inductive Event :=
| Analyzing
| TotalRoutes (n : nat)
| RoutePaths (all_route_paths : list string)
| Including (n : nat)
| Skipping (n : nat) (skipped_routes : list string)
| Generated
| Failed (e : Error)
| Traceback.

(** The FastAPI application: its routes and its cached schema. *)
Record App := mkApp {
  app_routes : list Route;
  openapi_schema : option (list (string * json));
}.

Section CustomOpenapi.

(** [fastapi.openapi.utils.get_openapi]: returns a schema or raises. *)
Variable get_openapi : OpenAPIArgs → Exception + list (string * json).

(** The [try] block: generate the schema and add the logo. *)
Definition generate (safe_routes : list Route) : Error + list (string * json) :=
  match get_openapi (openapi_args safe_routes) with
  | inl e => inl (Raised e)
  | inr openapi_schema => add_logo openapi_schema
  end.

(** [custom_openapi]: the schema returned, the application and the log
    afterwards. *)
Definition custom_openapi (app : App) (log : list Event)
    : list (string * json) * App * list Event :=
  match openapi_schema app with
  | Some ((_ :: _) as cached) => (cached, app, log)
  | _ =>
      let all_route_paths := collect_paths (app_routes app) in
      let log := log ++ [Analyzing; TotalRoutes (length all_route_paths);
                         RoutePaths all_route_paths] in
      let '(safe_routes, skipped_routes) := select_routes (app_routes app) in
      let log := log ++ [Including (length safe_routes);
                         Skipping (length skipped_routes) skipped_routes] in
      match generate safe_routes with
      | inr openapi_schema =>
          (openapi_schema, mkApp (app_routes app) (Some openapi_schema),
           log ++ [Generated])
      | inl e =>
          (fallback_schema, mkApp (app_routes app) (Some fallback_schema),
           log ++ [Failed e; Traceback])
      end
  end.

End CustomOpenapi.

(** [pattern] occurs in [path]. *)
Definition occurs_in (pattern path : string) : Prop :=
  ∃ before after, path = before +:+ pattern +:+ after.

(** The routes the second loop leaves out. *)
Definition skipped (route : Route) : bool :=
  match route with
  | APIRoute path => should_skip path
  | OtherRoute _ => false
  end.

(** The path the second loop records for a route it leaves out. *)
Definition skipped_path (route : Route) : option string :=
  match route with
  | APIRoute path => if should_skip path then Some path else None
  | OtherRoute _ => None
  end.

End server.

(** ** More example inputs *)

Module MoreExample.

Definition example_environ : gmap string string :=
  <["ALLOWED_ORIGINS" := "http://localhost:3000, https://app.example.org"]>
    (<["ENABLE_CLOUD_LOGGING" := "True"]> ∅).

Definition example_routes : list server.Route :=
  [server.APIRoute "/list-apps";
   server.APIRoute "/apps/{app_name}/eval-sets";
   server.OtherRoute "static";
   server.APIRoute "/health";
   server.APIRoute "/info"].

Definition example_app : server.App := server.mkApp example_routes None.

(** An [int] that reads the strings of ASCII digits, and raises
    [ValueError] on every other string.  Python's reads more: a sign, blanks
    around the number, underscores between digits. *)
Definition digit_value (c : ascii) : option Z :=
  let n := nat_of_ascii c in
  if ((48 <=? n) && (n <=? 57))%nat then Some (Z.of_nat (n - 48)) else None.

Fixpoint int_of_digits_from (acc : Z) (s : string) : option Z :=
  match s with
  | EmptyString => Some acc
  | String c s' =>
      match digit_value c with
      | Some d => int_of_digits_from (10 * acc + d)%Z s'
      | None => None
      end
  end.

Definition int_of_digits (s : string) : Exception + Z :=
  match s with
  | EmptyString => inl (mkException "invalid literal for int() with base 10: ''")
  | _ =>
      match int_of_digits_from 0 s with
      | Some n => inr n
      | None =>
          inl (mkException ("invalid literal for int() with base 10: '" +:+ s +:+ "'"))
      end
  end.


(** A [get_openapi] that describes the routes it is given. *)
Definition working_get_openapi (args : server.OpenAPIArgs)
    : Exception + list (string * server.json) :=
  inr [("openapi", server.JStr "3.1.0");
       ("info", server.JDict [("title", server.JStr (server.title args));
                              ("version", server.JStr (server.version args))]);
       ("paths", server.JDict
          (omap (λ r, match r with
                      | server.APIRoute path => Some (path, server.JDict [])
                      | server.OtherRoute _ => None
                      end) (server.routes args)))].

End MoreExample.

(** ** Lemmas on Python strings *)

Lemma rstrip_empty s : Py.rstrip s = "" ↔ Py.all_space s = true.
Proof.
  induction s as [|c s IH]; simpl; [done|].
  destruct (Py.rstrip s) eqn:E.
  - destruct (Py.isspace c); simpl; [tauto|].
    split; discriminate.
  - split; [discriminate|]. intros [_ H]%andb_true_iff.
    apply IH in H. discriminate.
Qed.

Lemma lstrip_all_space s : Py.all_space (Py.lstrip s) = Py.all_space s.
Proof.
  induction s as [|c s IH]; simpl; [done|].
  destruct (Py.isspace c) eqn:E; simpl; [done|]. by rewrite E.
Qed.

Lemma strip_empty s : Py.strip s = "" ↔ Py.all_space s = true.
Proof. unfold Py.strip. by rewrite rstrip_empty, lstrip_all_space. Qed.

Lemma mime_type_missing_spec (m : option string) :
  mime_type_missing m = true ↔
  m = None ∨ ∃ t, m = Some t ∧ Py.all_space t = true.
Proof.
  destruct m as [t|]; simpl; [|naive_solver].
  rewrite orb_true_iff, String.eqb_eq, strip_empty.
  split.
  - intros [H|H]; right; exists t; split; try done.
    by destruct t.
  - intros [|(t' & [= <-] & H)]; [done|]. by right.
Qed.

Lemma mime_type_missing_text_plain : mime_type_missing (Some "text/plain") = false.
Proof. reflexivity. Qed.

Lemma default_mime_type_idemp (b : Blob) :
  default_mime_type (default_mime_type b) = default_mime_type b.
Proof.
  unfold default_mime_type.
  destruct (mime_type_missing (mime_type b)) eqn:E; simpl; [done|].
  by rewrite E.
Qed.

(** ** One iteration of the loop *)

Section Body.

Context {Σ : Type}.
Implicit Types (ctx : InvocationContext Σ) (service : ArtifactService Σ).
Implicit Types (s : State Σ) (h : Heap) (b : Blob) (ps : list loc).

Lemma part_objs_defaulted_heap l h : part_objs (defaulted_heap l h) = part_objs h.
Proof. unfold defaulted_heap. by destruct (mime_type_missing _). Qed.

Lemma get_part_defaulted_heap l h q : get_part (defaulted_heap l h) q = get_part h q.
Proof. unfold get_part. by rewrite part_objs_defaulted_heap. Qed.

Lemma new_part_loc_defaulted_heap l h :
  new_part_loc (defaulted_heap l h) = new_part_loc h.
Proof. unfold new_part_loc. by rewrite part_objs_defaulted_heap. Qed.

Lemma get_blob_defaulted_heap l h :
  get_blob (defaulted_heap l h) l = default_mime_type (get_blob h l).
Proof.
  unfold defaulted_heap, default_mime_type.
  destruct (mime_type_missing _); [|done].
  unfold get_blob, set_blob; simpl. by rewrite lookup_total_insert_eq.
Qed.

Lemma new_part_loc_fresh h : part_objs h !! new_part_loc h = None.
Proof. apply not_elem_of_dom. unfold new_part_loc. apply is_fresh. Qed.

(** A Part without inline data is skipped. *)
Lemma loop_body_plain ctx service i part s :
  inline_data (get_part (heap s) part) = None →
  loop_body ctx service i part s = (inr tt, s).
Proof. intros H. unfold loop_body, bind, get_inline_data. by rewrite H. Qed.

Lemma bind_eq {A B} (m : M Σ A) (k : A → M Σ B) s :
  bind m k s = match m s with (inl e, s') => (inl e, s') | (inr a, s') => k a s' end.
Proof. reflexivity. Qed.

Lemma ret_eq {A} (a : A) s : ret a s = (inr a, s).
Proof. reflexivity. Qed.

Lemma logger_eq lvl msg s :
  logger lvl msg s =
  (inr tt, mkState (heap s) (store_st s) (modified s) (log s ++ [(lvl, msg)]) (calls s)).
Proof. reflexivity. Qed.

Lemma set_modified_eq v s :
  set_modified v s = (inr tt, mkState (heap s) (store_st s) v (log s) (calls s)).
Proof. reflexivity. Qed.

Lemma copy_copy_eq part s :
  copy_copy part s =
  (inr (new_part_loc (heap s)),
   with_heap (alloc_part (new_part_loc (heap s)) (get_part (heap s) part) (heap s)) s).
Proof. reflexivity. Qed.

Ltac mstep :=
  repeat (cbv beta iota zeta;
          first [ rewrite bind_eq | rewrite ret_eq | rewrite logger_eq
                | rewrite set_modified_eq | rewrite copy_copy_eq ]);
  cbv beta iota zeta; cbn [heap store_st modified log calls with_heap].

Lemma get_display_name_eq part l s :
  inline_data (get_part (heap s) part) = Some l →
  get_display_name part s = (inr (display_name (get_blob (heap s) l)), s).
Proof.
  intros H. unfold get_display_name, inline_data_of, bind, get_inline_data.
  by rewrite H.
Qed.

Lemma get_mime_type_eq part s :
  get_mime_type part s =
  match inline_data (get_part (heap s) part) with
  | Some l => (inr (mime_type (get_blob (heap s) l)), s)
  | None => (inl (IsException (AttributeError "mime_type")), s)
  end.
Proof.
  unfold get_mime_type, inline_data_of, bind, get_inline_data.
  by destruct (inline_data _).
Qed.

Lemma set_mime_type_eq part l v s :
  inline_data (get_part (heap s) part) = Some l →
  set_mime_type part v s =
  (inr tt, with_heap (set_blob l (with_mime_type (Some v) (get_blob (heap s) l)) (heap s)) s).
Proof.
  intros H. unfold set_mime_type, inline_data_of, bind, get_inline_data.
  by rewrite H.
Qed.

Lemma try_body_eq ctx service i part l s :
  inline_data (get_part (heap s) part) = Some l →
  try_body ctx service i part s =
  let b := get_blob (heap s) l in
  let args := args_at_call ctx i l (heap s) in
  let h2 := heap_at_call part l (heap s) in
  let '(h3, σ3, o) := save_artifact service args h2 (store_st s) in
  let log3 := log s ++ log_before_call ctx i b in
  let calls3 := calls s ++ [record_call i args h2 o] in
  match o with
  | Raises e => (inl (IsException e), mkState h3 σ3 (modified s) log3 calls3)
  | RaisesBase class_name =>
      (inl (NotException class_name), mkState h3 σ3 (modified s) log3 calls3)
  | Saved _ =>
      match inline_data (get_part h3 part) with
      | None => (inl (IsException (AttributeError "mime_type")),
                 mkState h3 σ3 true log3 calls3)
      | Some l' =>
          (inr tt,
           mkState h3 σ3 true
             (log3 ++ [(INFO, "Successfully saved artifact: "
                              +:+ chosen_filename ctx i b +:+ " ("
                              +:+ Py.format_opt (mime_type (get_blob h3 l')) +:+ ")")])
             calls3)
      end
  end.
Proof.
  intros H. unfold try_body, log_before_call, args_at_call, heap_at_call, chosen_filename.
  rewrite new_part_loc_defaulted_heap, get_part_defaulted_heap.
  unfold defaulted_heap.
  rewrite bind_eq, (get_display_name_eq _ l) by done.
  destruct (Py.truthy (display_name (get_blob (heap s) l))) eqn:Hn.
  all: mstep; rewrite get_mime_type_eq; cbn [heap]; rewrite H; mstep.
  all: destruct (mime_type_missing (mime_type (get_blob (heap s) l))) eqn:Hm.
  all: mstep; try (rewrite (set_mime_type_eq _ l) by done); mstep.
  all: unfold await_save_artifact at 1;
    cbn [heap store_st modified log calls with_heap];
    unfold new_part_loc, get_part, set_blob, alloc_part;
    cbn [part_objs blob_objs];
    destruct (save_artifact _ _ _ _) as [[h3 σ3] [v|e|class_name]].
  all: mstep; try (rewrite get_mime_type_eq; cbn [heap]; unfold get_part;
                   destruct (inline_data (part_objs h3 !!! part)); mstep).
  all: rewrite ?app_nil_r, <- ?app_assoc; try done.
Qed.

Lemma loop_body_eq ctx service i part l s :
  inline_data (get_part (heap s) part) = Some l →
  loop_body ctx service i part s =
  match try_body ctx service i part s with
  | (inl (IsException e), s') => except_body i e s'
  | (inl (NotException class_name), s') => (inl (NotException class_name), s')
  | (inr a, s') => (inr a, s')
  end.
Proof.
  intros H. unfold loop_body. rewrite bind_eq. unfold get_inline_data.
  by rewrite H.
Qed.

(** A Part with inline data leads to exactly one call, issued in
    [heap_at_call] with [args_at_call]; the iteration ends in the heap and
    the service state that this call leaves. *)
Lemma loop_body_inline ctx service i part l s :
  inline_data (get_part (heap s) part) = Some l →
  let r := after_call ctx service i part l s in
  let s' := (loop_body ctx service i part s).2 in
  heap s' = r.1.1 ∧ store_st s' = r.1.2 ∧
  calls s' = calls s ++ [record_call i (args_at_call ctx i l (heap s))
                                     (heap_at_call part l (heap s)) r.2].
Proof.
  intros H r s'. subst r s'. unfold after_call.
  rewrite (loop_body_eq _ _ _ _ l), (try_body_eq _ _ _ _ l) by done.
  cbv zeta. destruct (save_artifact _ _ _ _) as [[h3 σ3] [v|e|class_name]].
  - by destruct (inline_data (get_part h3 part)).
  - unfold except_body. by rewrite logger_eq.
  - done.
Qed.

(** How an iteration ends: it returns, unless the call of [save_artifact]
    raised a [BaseException] that is no [Exception], which it passes on. *)
Lemma loop_body_result ctx service i part s :
  (loop_body ctx service i part s).1 =
  match inline_data (get_part (heap s) part) with
  | Some l =>
      match (after_call ctx service i part l s).2 with
      | RaisesBase class_name => inl (NotException class_name)
      | _ => inr tt
      end
  | None => inr tt
  end.
Proof.
  destruct (inline_data (get_part (heap s) part)) as [l|] eqn:H.
  - unfold after_call.
    rewrite (loop_body_eq _ _ _ _ l), (try_body_eq _ _ _ _ l) by done.
    cbv zeta. destruct (save_artifact _ _ _ _) as [[h3 σ3] [v|e|class_name]].
    + by destruct (inline_data (get_part h3 part)).
    + unfold except_body. by rewrite logger_eq.
    + done.
  - by rewrite loop_body_plain.
Qed.

(** An iteration returns or passes on what is no [Exception]. *)
Lemma loop_body_returns ctx service i part s :
  (loop_body ctx service i part s).1 = inr tt ∨
  ∃ class_name, (loop_body ctx service i part s).1 = inl (NotException class_name).
Proof.
  rewrite loop_body_result.
  destruct (inline_data _) as [l|]; [|by left].
  destruct (after_call _ _ _ _ _ _).2; eauto.
Qed.


(** A call that raises leaves its error record in the log. *)
Lemma loop_body_log_error ctx service i part l s e :
  inline_data (get_part (heap s) part) = Some l →
  (after_call ctx service i part l s).2 = Raises e →
  error_record i e ∈ log (loop_body ctx service i part s).2.
Proof.
  intros H. unfold after_call.
  rewrite (loop_body_eq _ _ _ _ l), (try_body_eq _ _ _ _ l) by done.
  cbv zeta. destruct (save_artifact _ _ _ _) as [[h3 σ3] [v|e'|class_name]];
    [done| |done].
  intros [= ->]. unfold except_body. rewrite logger_eq.
  cbn [snd log]. unfold error_record. set_solver.
Qed.

End Body.

(** ** The loop *)

Section Loop.

Context {Σ : Type}.
Implicit Types (ctx : InvocationContext Σ) (service : ArtifactService Σ).
Implicit Types (s : State Σ) (h : Heap) (b : Blob) (ps : list loc).

Lemma for_enumerate_cons ctx service i part ps s :
  for_enumerate (loop_body ctx service) i (part :: ps) s =
  match loop_body ctx service i part s with
  | (inl r, s') => (inl r, s')
  | (inr _, s') => for_enumerate (loop_body ctx service) (S i) ps s'
  end.
Proof. simpl. by rewrite bind_eq. Qed.

(** The loop goes on after an iteration that returned. *)
Lemma for_enumerate_next ctx service i part ps s :
  (loop_body ctx service i part s).1 = inr tt →
  for_enumerate (loop_body ctx service) i (part :: ps) s =
  for_enumerate (loop_body ctx service) (S i) ps (loop_body ctx service i part s).2.
Proof.
  rewrite for_enumerate_cons.
  destruct (loop_body ctx service i part s) as [[r|[]] s']; simpl; [done|done].
Qed.

(** The loop ends with an iteration that raised. *)
Lemma for_enumerate_stop ctx service i part ps s r :
  (loop_body ctx service i part s).1 = inl r →
  for_enumerate (loop_body ctx service) i (part :: ps) s =
  (inl r, (loop_body ctx service i part s).2).
Proof.
  rewrite for_enumerate_cons.
  destruct (loop_body ctx service i part s) as [[r'|[]] s']; simpl; [|done].
  by intros [= ->].
Qed.

Lemma for_enumerate_cases ctx service i part ps s :
  ((loop_body ctx service i part s).1 = inr tt ∧
   for_enumerate (loop_body ctx service) i (part :: ps) s =
   for_enumerate (loop_body ctx service) (S i) ps (loop_body ctx service i part s).2)
  ∨
  (∃ class_name,
     (loop_body ctx service i part s).1 = inl (NotException class_name) ∧
     for_enumerate (loop_body ctx service) i (part :: ps) s =
     (inl (NotException class_name), (loop_body ctx service i part s).2)).
Proof.
  destruct (loop_body_returns ctx service i part s) as [H|[class_name H]].
  - left. split; [done|]. by apply for_enumerate_next.
  - right. exists class_name. split; [done|]. by apply for_enumerate_stop.
Qed.

(** The loop returns or passes on what is no [Exception]. *)
Lemma for_enumerate_returns ctx service ps i s :
  (for_enumerate (loop_body ctx service) i ps s).1 = inr tt ∨
  ∃ class_name,
    (for_enumerate (loop_body ctx service) i ps s).1 = inl (NotException class_name).
Proof.
  revert i s. induction ps as [|part ps IH]; intros i s; [by left|].
  destruct (for_enumerate_cases ctx service i part ps s)
    as [[_ ->]|(class_name & _ & ->)]; [apply IH|eauto].
Qed.

Lemma for_enumerate_app ctx service ps1 ps2 i s :
  (for_enumerate (loop_body ctx service) i ps1 s).1 = inr tt →
  for_enumerate (loop_body ctx service) i (ps1 ++ ps2) s =
  for_enumerate (loop_body ctx service) (i + length ps1) ps2
    (for_enumerate (loop_body ctx service) i ps1 s).2.
Proof.
  revert i s. induction ps1 as [|part ps1 IH]; intros i s.
  - simpl. by rewrite Nat.add_0_r.
  - rewrite <- app_comm_cons.
    destruct (for_enumerate_cases ctx service i part ps1 s)
      as [[Hb ->]|(class_name & _ & ->)]; [|done].
    intros H. rewrite (for_enumerate_next _ _ _ _ _ _ Hb), IH by done. simpl.
    by rewrite Nat.add_succ_r.
Qed.

Lemma for_enumerate_app_stop ctx service ps1 ps2 i s r :
  (for_enumerate (loop_body ctx service) i ps1 s).1 = inl r →
  for_enumerate (loop_body ctx service) i (ps1 ++ ps2) s =
  for_enumerate (loop_body ctx service) i ps1 s.
Proof.
  revert i s. induction ps1 as [|part ps1 IH]; intros i s; [done|].
  rewrite <- app_comm_cons.
  destruct (for_enumerate_cases ctx service i part ps1 s)
    as [[Hb ->]|(class_name & Hb & ->)].
  - intros H. rewrite (for_enumerate_next _ _ _ _ _ _ Hb). by apply IH.
  - intros _. by rewrite (for_enumerate_stop _ _ _ _ _ _ _ Hb).
Qed.

Lemma for_enumerate_one ctx service i part s :
  for_enumerate (loop_body ctx service) i [part] s = loop_body ctx service i part s.
Proof.
  rewrite for_enumerate_cons.
  by destruct (loop_body ctx service i part s) as [[r|[]] s'].
Qed.


(** From one index to the next. *)
Lemma loop_state_S ctx service ps i part s :
  arrives ctx service ps i s →
  ps !! i = Some part →
  loop_state ctx service ps (S i) s =
  (loop_body ctx service i part (loop_state ctx service ps i s)).2.
Proof.
  intros Ha H. unfold loop_state.
  rewrite (take_S_r _ _ _ H), for_enumerate_app, for_enumerate_one by done.
  simpl. rewrite length_take_le; [done|]. apply lookup_lt_Some in H. lia.
Qed.

(** The loop arrives at the next index if the iteration returns. *)
Lemma arrives_S ctx service ps i part s :
  arrives ctx service ps i s →
  ps !! i = Some part →
  arrives ctx service ps (S i) s ↔
  (loop_body ctx service i part (loop_state ctx service ps i s)).1 = inr tt.
Proof.
  intros Ha H. unfold arrives, loop_state.
  rewrite (take_S_r _ _ _ H), for_enumerate_app, for_enumerate_one by done.
  simpl. rewrite length_take_le; [done|]. apply lookup_lt_Some in H. lia.
Qed.

Lemma arrives_0 ctx service ps s : arrives ctx service ps 0 s.
Proof. unfold arrives. by rewrite take_0. Qed.

(** The loop arrived at every index before one it arrives at. *)
Lemma arrives_le ctx service ps i j s :
  (i ≤ j)%nat → arrives ctx service ps j s → arrives ctx service ps i s.
Proof.
  intros Hle Hj. unfold arrives in *.
  destruct (for_enumerate_returns ctx service (take i ps) 0 (set_modified false s).2)
    as [H|[class_name H]]; [done|].
  replace (take j ps) with (take i ps ++ drop i (take j ps)) in Hj.
  - rewrite (for_enumerate_app_stop _ _ _ _ _ _ _ H) in Hj. congruence.
  - rewrite <- (take_drop i (take j ps)) at 2. f_equal.
    rewrite take_take. f_equal. lia.
Qed.

(** The run of the loop, seen from an index it arrives at. *)
Lemma loop_from ctx service ps i s :
  arrives ctx service ps i s →
  for_enumerate (loop_body ctx service) 0 ps (set_modified false s).2 =
  for_enumerate (loop_body ctx service) (i `min` length ps) (drop i ps)
    (loop_state ctx service ps i s).
Proof.
  intros Ha. unfold loop_state.
  rewrite <- (take_drop i ps) at 1. rewrite for_enumerate_app by done.
  by rewrite length_take.
Qed.

(** The run of the loop that does not arrive at [i] ended before. *)
Lemma loop_ended ctx service ps i s :
  ¬ arrives ctx service ps i s →
  for_enumerate (loop_body ctx service) 0 ps (set_modified false s).2 =
  for_enumerate (loop_body ctx service) 0 (take i ps) (set_modified false s).2.
Proof.
  intros Ha. unfold arrives in Ha.
  destruct (for_enumerate_returns ctx service (take i ps) 0 (set_modified false s).2)
    as [H|[class_name H]]; [done|].
  rewrite <- (take_drop i ps) at 1. by rewrite (for_enumerate_app_stop _ _ _ _ _ _ _ H).
Qed.

Lemma arrives_dec ctx service ps i s :
  arrives ctx service ps i s ∨ ¬ arrives ctx service ps i s.
Proof.
  unfold arrives.
  destruct (for_enumerate_returns ctx service (take i ps) 0 (set_modified false s).2)
    as [H|[class_name H]]; [by left|right]. rewrite H. discriminate.
Qed.

(** The calls of the loop started at index [i] on [ps] carry indices from
    [i] up to [i + length ps], and come after those made before. *)
Lemma for_enumerate_calls ctx service ps i s :
  ∃ new, calls (for_enumerate (loop_body ctx service) i ps s).2 = calls s ++ new
         ∧ Forall (λ c, i ≤ call_index c < i + length ps) new.
Proof.
  revert i s. induction ps as [|part ps IH]; intros i s.
  - exists []. by rewrite app_nil_r.
  - assert (∃ mid, calls (loop_body ctx service i part s).2 = calls s ++ mid ∧
                   Forall (λ c, call_index c = i) mid) as (mid & Hmid & Hmid').
    { destruct (inline_data (get_part (heap s) part)) as [l|] eqn:H.
      - destruct (loop_body_inline ctx service i part l s H) as (_ & _ & ->).
        eexists. split; [done|]. by repeat constructor.
      - rewrite loop_body_plain by done. exists []. by rewrite app_nil_r. }
    destruct (for_enumerate_cases ctx service i part ps s)
      as [[_ ->]|(class_name & _ & ->)].
    + destruct (IH (S i) (loop_body ctx service i part s).2) as (new & -> & Hnew).
      rewrite Hmid, <- app_assoc. eexists; split; [done|].
      apply Forall_app. split.
      * eapply Forall_impl; [exact Hmid'|]. simpl. intros; lia.
      * eapply Forall_impl; [exact Hnew|]. simpl. intros; lia.
    + simpl. rewrite Hmid. eexists; split; [done|].
      eapply Forall_impl; [exact Hmid'|]. simpl. intros; lia.
Qed.


(** The callback on a context with a service, unfolded. *)
Lemma callback_eq ctx service msg ps s :
  artifact_service ctx = Some service →
  parts msg = Some ps →
  on_agent_output_callback ctx msg s =
  match ps with
  | [] => (inr None, s)
  | _ =>
      match for_enumerate (loop_body ctx service) 0 ps (set_modified false s).2 with
      | (inl r, s') => (inl r, s')
      | (inr _, s') => (inr None, s')
      end
  end.
Proof.
  intros Hs Hp. unfold on_agent_output_callback. rewrite Hs, Hp.
  destruct ps as [|part ps]; [done|].
  rewrite bind_eq, set_modified_eq, bind_eq.
  by destruct (for_enumerate _ _ _ _) as [[r|[]] s'].
Qed.

(** Heap, service state, log and calls after the callback are those after
    the loop, also on an empty list of Parts. *)
Lemma callback_loop ctx service msg ps s :
  artifact_service ctx = Some service →
  parts msg = Some ps →
  let s' := (on_agent_output_callback ctx msg s).2 in
  let s'' := (for_enumerate (loop_body ctx service) 0 ps (set_modified false s).2).2 in
  heap s' = heap s'' ∧ store_st s' = store_st s'' ∧
  log s' = log s'' ∧ calls s' = calls s''.
Proof.
  intros Hs Hp. rewrite (callback_eq _ _ _ _ _ Hs Hp).
  destruct ps; [done|]. by destruct (for_enumerate _ _ _ _) as [[r|[]] s'].
Qed.

(** The callback returns [None] when the loop returns, and raises what the
    loop raises. *)
Lemma callback_result ctx service msg ps s :
  artifact_service ctx = Some service →
  parts msg = Some ps →
  (on_agent_output_callback ctx msg s).1 =
  match (for_enumerate (loop_body ctx service) 0 ps (set_modified false s).2).1 with
  | inl r => inl r
  | inr _ => inr None
  end.
Proof.
  intros Hs Hp. rewrite (callback_eq _ _ _ _ _ Hs Hp).
  destruct ps; [done|]. by destruct (for_enumerate _ _ _ _) as [[r|[]] s'].
Qed.

Lemma filter_index_ne (i : nat) (new : list SaveCall) :
  Forall (λ c, call_index c ≠ i) new → filter (λ c, call_index c = i) new = [].
Proof.
  induction 1 as [|c new Hc _ IH]; [done|].
  by rewrite filter_cons_False.
Qed.

(** What follows the iteration at an index [i] the loop arrives at: the
    loop over the Parts left, which are none if the iteration raised. *)
Lemma loop_after_iteration ctx service ps i part s :
  arrives ctx service ps i s →
  ps !! i = Some part →
  ∃ ps',
    (for_enumerate (loop_body ctx service) 0 ps (set_modified false s).2).2 =
    (for_enumerate (loop_body ctx service) (S i) ps'
       (loop_body ctx service i part (loop_state ctx service ps i s)).2).2.
Proof.
  intros Ha Hi.
  assert (Hlen : i < length ps) by by eapply lookup_lt_Some.
  rewrite (loop_from _ _ _ i), (Nat.min_l i) by (done || lia).
  rewrite (drop_S _ _ _ Hi).
  destruct (for_enumerate_cases ctx service i part (drop (S i) ps)
    (loop_state ctx service ps i s)) as [[_ ->]|(class_name & _ & ->)].
  - by exists (drop (S i) ps).
  - by exists [].
Qed.

(** The calls of a run, split around an index [i] the loop arrives at:
    those made before, those of the iteration at [i], those made after. *)
Lemma calls_split ctx service msg ps i part s :
  artifact_service ctx = Some service →
  parts msg = Some ps →
  ps !! i = Some part →
  arrives ctx service ps i s →
  let s_i := loop_state ctx service ps i s in
  ∃ before mid after,
    calls s_i = calls s ++ before ∧
    calls (loop_body ctx service i part s_i).2 = calls s_i ++ mid ∧
    calls_made ctx msg s = before ++ mid ++ after ∧
    calls (on_agent_output_callback ctx msg s).2 = calls s_i ++ mid ++ after ∧
    Forall (λ c, call_index c < i) before ∧
    Forall (λ c, call_index c = i) mid ∧
    Forall (λ c, i < call_index c) after.
Proof.
  intros Hs Hp Hi Ha s_i.
  assert (Hlen : i < length ps) by by eapply lookup_lt_Some.
  unfold calls_made.
  destruct (callback_loop ctx service msg ps s Hs Hp) as (_ & _ & _ & ->).
  rewrite (loop_from _ _ _ i), (Nat.min_l i) by (done || lia). fold s_i.
  rewrite (drop_S _ _ _ Hi).
  destruct (for_enumerate_calls ctx service [part] i s_i) as (mid & Hmid & Hmid').
  rewrite for_enumerate_one in Hmid.
  destruct (for_enumerate_calls ctx service (take i ps) 0 (set_modified false s).2)
    as (before & Hbefore & Hbefore').
  fold (loop_state ctx service ps i s) in Hbefore. fold s_i in Hbefore.
  rewrite set_modified_eq in Hbefore. simpl in Hbefore.
  assert (∃ after,
    calls (for_enumerate (loop_body ctx service) i (part :: drop (S i) ps) s_i).2
      = calls (loop_body ctx service i part s_i).2 ++ after ∧
    Forall (λ c, i < call_index c) after) as (after & -> & Hafter).
  { destruct (for_enumerate_cases ctx service i part (drop (S i) ps) s_i)
      as [[_ ->]|(class_name & _ & ->)].
    - destruct (for_enumerate_calls ctx service (drop (S i) ps) (S i)
        (loop_body ctx service i part s_i).2) as (after & -> & Hafter).
      exists after. split; [done|].
      eapply Forall_impl; [exact Hafter|]. simpl. intros; lia.
    - exists []. by rewrite app_nil_r. }
  exists before, mid, after.
  rewrite Hmid, Hbefore, <- !app_assoc, drop_app_length.
  repeat split; try done.
  - eapply Forall_impl; [exact Hbefore'|]. simpl. intros c Hc.
    rewrite length_take in Hc. lia.
  - eapply Forall_impl; [exact Hmid'|]. simpl. intros; lia.
Qed.

(** The calls issued at index [i] are those of the iteration at [i]. *)
Lemma calls_for_iteration ctx service msg ps i part s :
  artifact_service ctx = Some service →
  parts msg = Some ps →
  ps !! i = Some part →
  arrives ctx service ps i s →
  let s_i := loop_state ctx service ps i s in
  calls (loop_body ctx service i part s_i).2 = calls s_i ++ calls_for ctx msg s i.
Proof.
  intros Hs Hp Hi Harr s_i.
  destruct (calls_split ctx service msg ps i part s Hs Hp Hi Harr)
    as (before & mid & after & _ & Hmid & Hmade & _ & Hb & Hm & Ha).
  fold s_i in Hmid. rewrite Hmid. f_equal.
  unfold calls_for. rewrite Hmade, !filter_app.
  rewrite (filter_index_ne i before), (filter_index_ne i after); simpl.
  - rewrite app_nil_r. clear -Hm. induction Hm as [|c mid Hc _ IH]; [done|].
    by rewrite filter_cons_True, <- IH.
  - eapply Forall_impl; [exact Ha|]. simpl. intros; lia.
  - eapply Forall_impl; [exact Hb|]. simpl. intros; lia.
Qed.

(** No call is issued at an index the loop does not arrive at. *)
Lemma calls_for_not_arrived ctx service msg ps i s :
  artifact_service ctx = Some service →
  parts msg = Some ps →
  ¬ arrives ctx service ps i s →
  calls_for ctx msg s i = [].
Proof.
  intros Hs Hp Ha. unfold calls_for, calls_made.
  destruct (callback_loop ctx service msg ps s Hs Hp) as (_ & _ & _ & ->).
  rewrite (loop_ended _ _ _ i) by done.
  destruct (for_enumerate_calls ctx service (take i ps) 0 (set_modified false s).2)
    as (before & -> & Hbefore).
  rewrite set_modified_eq. simpl. rewrite drop_app_length.
  apply filter_index_ne. eapply Forall_impl; [exact Hbefore|]. simpl.
  intros c Hc. rewrite length_take in Hc. lia.
Qed.

(** A call issued at index [i] shows that the loop arrived there. *)
Lemma calls_for_arrives ctx service msg ps i s c :
  artifact_service ctx = Some service →
  parts msg = Some ps →
  c ∈ calls_for ctx msg s i →
  arrives ctx service ps i s.
Proof.
  intros Hs Hp Hc. destruct (arrives_dec ctx service ps i s) as [H|H]; [done|].
  rewrite (calls_for_not_arrived ctx service msg ps i s Hs Hp H) in Hc.
  by apply elem_of_nil in Hc.
Qed.

End Loop.

(** ** The call issued for a Part *)

Section Calls.

Context {Σ : Type}.
Implicit Types (ctx : InvocationContext Σ) (service : ArtifactService Σ).
Implicit Types (s : State Σ) (h : Heap) (b : Blob) (ps : list loc).

(** What the trace records of a call: the copy has the fields of the Part,
    and the Blob it refers to went through the MIME type check. *)
Lemma record_call_at_call ctx i part l h o :
  inline_data (get_part h part) = Some l →
  record_call i (args_at_call ctx i l h) (heap_at_call part l h) o =
  mkSaveCall i (args_at_call ctx i l h) (get_part h part)
             (Some (default_mime_type (get_blob h l))) o.
Proof.
  intros H. unfold record_call, heap_at_call. simpl.
  rewrite new_part_loc_defaulted_heap, get_part_defaulted_heap.
  assert (get_part (alloc_part (new_part_loc h) (get_part h part) (defaulted_heap l h))
            (new_part_loc h) = get_part h part) as ->.
  { unfold get_part at 1, alloc_part. simpl. by rewrite lookup_total_insert_eq. }
  rewrite H. simpl. do 2 f_equal.
  unfold get_blob at 1, alloc_part. simpl. apply get_blob_defaulted_heap.
Qed.

Lemma calls_for_inline ctx service msg ps i part l s :
  artifact_service ctx = Some service →
  parts msg = Some ps →
  ps !! i = Some part →
  arrives ctx service ps i s →
  let s_i := loop_state ctx service ps i s in
  inline_data (get_part (heap s_i) part) = Some l →
  calls_for ctx msg s i =
  [mkSaveCall i (args_at_call ctx i l (heap s_i)) (get_part (heap s_i) part)
              (Some (default_mime_type (get_blob (heap s_i) l)))
              (after_call ctx service i part l s_i).2].
Proof.
  intros Hs Hp Hi Ha s_i Hl.
  pose proof (calls_for_iteration ctx service msg ps i part s Hs Hp Hi Ha) as H.
  destruct (loop_body_inline ctx service i part l s_i Hl) as (_ & _ & H').
  cbv zeta in H. fold s_i in H. rewrite H' in H. apply app_inv_head in H.
  by rewrite <- H, record_call_at_call.
Qed.



(** The calls issued at an index are among the calls of the run. *)
Lemma calls_for_made ctx msg s i c :
  c ∈ calls_for ctx msg s i ↔ c ∈ calls_made ctx msg s ∧ call_index c = i.
Proof. unfold calls_for. by rewrite list_elem_of_filter, (comm and). Qed.

Lemma calls_made_no_service ctx msg s :
  artifact_service ctx = None → calls_made ctx msg s = [].
Proof.
  intros Hs. unfold calls_made, on_agent_output_callback. rewrite Hs.
  rewrite bind_eq, logger_eq. simpl. by rewrite drop_all.
Qed.

Lemma calls_made_no_parts ctx msg s :
  parts msg = None → calls_made ctx msg s = [].
Proof.
  intros Hp. destruct (artifact_service ctx) as [service|] eqn:Hs;
    [|by apply calls_made_no_service].
  unfold calls_made, on_agent_output_callback. rewrite Hs, Hp. simpl.
  by rewrite drop_all.
Qed.


(** The loop arrives at [j] from an index [k] it arrives at when no call
    issued from [k] on and before [j] raised what is no [Exception]. *)
Lemma arrives_from ctx service msg ps k j s :
  artifact_service ctx = Some service →
  parts msg = Some ps →
  arrives ctx service ps k s →
  (k ≤ j)%nat →
  (∀ c, c ∈ calls_made ctx msg s → (k ≤ call_index c < j)%nat →
        ∀ class_name, call_outcome c ≠ RaisesBase class_name) →
  arrives ctx service ps j s.
Proof.
  intros Hs Hp Hk. induction j as [|j IH]; intros Hle H.
  - by replace k with 0 in Hk by lia.
  - destruct (decide (k = S j)) as [->|Hne]; [done|].
    assert (Ha : arrives ctx service ps j s).
    { apply IH; [lia|]. intros c Hc Hi. apply H; [done|lia]. }
    destruct (ps !! j) as [part|] eqn:Hj.
    + apply (arrives_S _ _ _ _ _ _ Ha Hj).
      set (s_j := loop_state ctx service ps j s).
      destruct (inline_data (get_part (heap s_j) part)) as [l|] eqn:Hl.
      * pose proof (calls_for_inline ctx service msg ps j part l s Hs Hp Hj Ha Hl) as Hc.
        fold s_j in Hc.
        assert (Hin : mkSaveCall j (args_at_call ctx j l (heap s_j))
                  (get_part (heap s_j) part)
                  (Some (default_mime_type (get_blob (heap s_j) l)))
                  (after_call ctx service j part l s_j).2 ∈ calls_made ctx msg s).
        { apply (calls_for_made ctx msg s j). rewrite Hc.
          apply list_elem_of_singleton. reflexivity. }
        pose proof (H _ Hin) as Hout. simpl in Hout.
        rewrite loop_body_result, Hl.
        destruct (after_call ctx service j part l s_j).2 as [v|e|class_name];
          [done|done|].
        assert (Hr : (k ≤ j < S j)%nat) by lia.
        by destruct (Hout Hr class_name).
      * by rewrite loop_body_plain.
    + unfold arrives in *. apply lookup_ge_None in Hj.
      by rewrite take_ge in * by lia.
Qed.

(** The loop arrives at every index up to the first call that raised what
    is no [Exception]. *)
Lemma arrives_of_calls ctx service msg ps i s :
  artifact_service ctx = Some service →
  parts msg = Some ps →
  (∀ c, c ∈ calls_made ctx msg s → (call_index c < i)%nat →
        ∀ class_name, call_outcome c ≠ RaisesBase class_name) →
  arrives ctx service ps i s.
Proof.
  intros Hs Hp H.
  apply (arrives_from ctx service msg ps 0 i s Hs Hp (arrives_0 _ _ _ _)); [lia|].
  intros c Hc Hi. apply H; [done|lia].
Qed.

Lemma truthy_false (n : option string) :
  Py.truthy n = false ↔ absent_or_empty n.
Proof.
  unfold absent_or_empty. destruct n as [[|c n]|]; simpl.
  - split; auto.
  - split; [discriminate|]. intros [|]; discriminate.
  - split; auto.
Qed.



(** The callback returns [None] exactly when the loop arrives at the end of
    the list of Parts. *)
Lemma callback_returns_iff ctx service msg ps s :
  artifact_service ctx = Some service →
  parts msg = Some ps →
  (on_agent_output_callback ctx msg s).1 = inr None ↔
  arrives ctx service ps (length ps) s.
Proof.
  intros Hs Hp. rewrite (callback_result _ _ _ _ _ Hs Hp).
  unfold arrives. rewrite firstn_all.
  destruct (for_enumerate_returns ctx service ps 0 (set_modified false s).2)
    as [->|[class_name ->]]; [done|]. split; discriminate.
Qed.

(** The callback that returned arrived at every index. *)
Lemma callback_returned_arrives ctx service msg ps i s :
  artifact_service ctx = Some service →
  parts msg = Some ps →
  (on_agent_output_callback ctx msg s).1 = inr None →
  arrives ctx service ps i s.
Proof.
  intros Hs Hp H. apply (callback_returns_iff _ _ _ _ _ Hs Hp) in H.
  destruct (decide (i ≤ length ps)%nat) as [Hi|Hi].
  - by apply (arrives_le _ _ _ i (length ps)).
  - unfold arrives in *. rewrite firstn_all in H. by rewrite take_ge by lia.
Qed.

(** The callback returns [None] when no call raised what is no [Exception]. *)
Lemma callback_returns_None ctx msg s :
  (∀ c, c ∈ calls_made ctx msg s →
        ∀ class_name, call_outcome c ≠ RaisesBase class_name) →
  (on_agent_output_callback ctx msg s).1 = inr None.
Proof.
  intros H.
  destruct (artifact_service ctx) as [service|] eqn:Hs.
  - destruct (parts msg) as [ps|] eqn:Hp.
    + apply (callback_returns_iff _ _ _ _ _ Hs Hp).
      apply (arrives_of_calls _ _ msg); [done|done|]. intros c Hc _. by apply H.
    + unfold on_agent_output_callback. by rewrite Hs, Hp.
  - unfold on_agent_output_callback. by rewrite Hs.
Qed.

End Calls.

(** ** The claims on filenames and MIME types *)

Section Naming.

Context {Σ : Type}.
Implicit Types (ctx : InvocationContext Σ) (service : ArtifactService Σ).
Implicit Types (s : State Σ) (h : Heap) (b : Blob) (ps : list loc).

(** C2. When the loop arrives at index [i] and finds a Part with inline data
    whose display name is absent or empty, exactly one call of
    [save_artifact] is issued for that index, and its filename is
    [artifact_{invocation_id}_{i}.txt]. *)
Theorem generated_filename_for_unnamed_part ctx service msg ps i part l s :
  artifact_service ctx = Some service →
  parts msg = Some ps →
  ps !! i = Some part →
  arrives ctx service ps i s →
  let s_i := loop_state ctx service ps i s in
  inline_data (get_part (heap s_i) part) = Some l →
  absent_or_empty (display_name (get_blob (heap s_i) l)) →
  ∃ c, calls_for ctx msg s i = [c] ∧
       filename (call_args c) =
       "artifact_" +:+ invocation_id ctx +:+ "_" +:+ Py.str_of_int i +:+ ".txt".
Proof.
  intros Hs Hp Hi Ha s_i Hl Hn. eexists. split.
  - by apply (calls_for_inline ctx service msg ps i part l s).
  - cbn [call_args filename args_at_call]. unfold chosen_filename.
    apply truthy_false in Hn. fold s_i. by rewrite Hn.
Qed.

(** C3. When the loop arrives at a Part with inline data whose MIME type is
    absent or whitespace only, the artifact passed to [save_artifact]
    carries the MIME type [text/plain]. *)
Theorem text_plain_for_blank_mime_type ctx service msg ps i part l s :
  artifact_service ctx = Some service →
  parts msg = Some ps →
  ps !! i = Some part →
  arrives ctx service ps i s →
  let s_i := loop_state ctx service ps i s in
  inline_data (get_part (heap s_i) part) = Some l →
  absent_or_blank (mime_type (get_blob (heap s_i) l)) →
  ∃ c, calls_for ctx msg s i = [c] ∧
       mime_type <$> call_blob c = Some (Some "text/plain").
Proof.
  intros Hs Hp Hi Ha s_i Hl Hm. eexists. split.
  - by apply (calls_for_inline ctx service msg ps i part l s).
  - cbn [call_blob fmap option_fmap option_map]. unfold default_mime_type.
    apply mime_type_missing_spec in Hm. fold s_i. by rewrite Hm.
Qed.

(** C8. When the loop arrives at a Part with inline data whose display name
    is not empty and whose MIME type is not blank, [save_artifact] is called
    with that display name as filename and an artifact carrying that MIME
    type. *)
Theorem name_and_mime_type_passed_unmodified ctx service msg ps i part l s n m :
  artifact_service ctx = Some service →
  parts msg = Some ps →
  ps !! i = Some part →
  arrives ctx service ps i s →
  let s_i := loop_state ctx service ps i s in
  inline_data (get_part (heap s_i) part) = Some l →
  display_name (get_blob (heap s_i) l) = Some n → n ≠ "" →
  mime_type (get_blob (heap s_i) l) = Some m → Py.all_space m = false →
  ∃ c, calls_for ctx msg s i = [c] ∧
       filename (call_args c) = n ∧
       mime_type <$> call_blob c = Some (Some m).
Proof.
  intros Hs Hp Hi Ha s_i Hl Hn Hn' Hm Hm'. eexists. split.
  - by apply (calls_for_inline ctx service msg ps i part l s).
  - cbn [call_args filename args_at_call call_blob fmap option_fmap option_map].
    unfold chosen_filename, default_mime_type. fold s_i.
    rewrite Hn, Hm. split.
    + by destruct n.
    + assert (mime_type_missing (Some m) = false) as ->; [|by rewrite Hm].
      apply not_true_iff_false. rewrite mime_type_missing_spec.
      intros [|(t & [= <-] & ?)]; congruence.
Qed.

End Naming.

(** ** The claims on guards and failures *)

Section Failures.

Context {Σ : Type}.
Implicit Types (ctx : InvocationContext Σ) (service : ArtifactService Σ).
Implicit Types (s : State Σ) (h : Heap) (b : Blob) (ps : list loc).

(** C4. Without an artifact service the callback calls [save_artifact] for
    no Part, logs one warning and nothing else, leaves the heap alone and
    returns [None], whatever the message holds. *)
Theorem no_service_one_warning ctx msg s :
  artifact_service ctx = None →
  let r := on_agent_output_callback ctx msg s in
  r.1 = inr None ∧
  calls_made ctx msg s = [] ∧
  log r.2 = log s ++ [(WARNING,
    "Artifact service is not set. SaveArtifactsPlugin will not be enabled.")] ∧
  heap r.2 = heap s.
Proof.
  intros Hs. unfold calls_made, on_agent_output_callback. rewrite Hs.
  rewrite bind_eq, logger_eq. simpl. by rewrite drop_all.
Qed.

(** A loop over Parts without inline data changes nothing. *)
Lemma for_enumerate_plain ctx service ps i s :
  Forall (λ part, inline_data (get_part (heap s) part) = None) ps →
  for_enumerate (loop_body ctx service) i ps s = (inr tt, s).
Proof.
  intros H. revert i. induction H as [|part ps H _ IH]; intros i; [done|].
  rewrite for_enumerate_next; rewrite loop_body_plain by done; [apply IH|done].
Qed.

(** C7. On a message none of whose Parts has inline data, be it without
    Parts or with plain Parts only, the callback calls [save_artifact] not
    once and returns [None]. *)
Theorem no_inline_data_no_call ctx msg s :
  Forall (λ part, inline_data (get_part (heap s) part) = None)
         (default [] (parts msg)) →
  calls_made ctx msg s = [] ∧ (on_agent_output_callback ctx msg s).1 = inr None.
Proof.
  intros H.
  assert (Hc : calls_made ctx msg s = []).
  { destruct (artifact_service ctx) as [service|] eqn:Hs;
      [|by apply calls_made_no_service].
    destruct (parts msg) as [ps|] eqn:Hp; [|by apply calls_made_no_parts].
    unfold calls_made.
    destruct (callback_loop ctx service msg ps s Hs Hp) as (_ & _ & _ & ->).
    rewrite for_enumerate_plain by done. simpl. by rewrite drop_all. }
  split; [done|]. apply callback_returns_None. rewrite Hc.
  by intros c ?%elem_of_nil.
Qed.





End Failures.

(** ** What the caller observes of the message afterwards *)

Section Frame.

Context {Σ : Type}.
Implicit Types (ctx : InvocationContext Σ) (service : ArtifactService Σ).
Implicit Types (s : State Σ) (h : Heap) (b : Blob) (ps : list loc).

Lemma heap_evolves_refl h : heap_evolves h h.
Proof. split; [done|]. auto. Qed.

Lemma heap_evolves_trans h0 h1 h2 :
  heap_evolves h0 h1 → heap_evolves h1 h2 → heap_evolves h0 h2.
Proof.
  intros [Hp1 Hb1] [Hp2 Hb2]. split; [by etrans|].
  intros l b Hl.
  destruct (Hb1 l b Hl) as [H|H]; destruct (Hb2 l _ H) as [H'|H']; auto.
  rewrite default_mime_type_idemp in H'. auto.
Qed.

(** The Blobs after the MIME type check of the one at [l]. *)
Lemma blob_objs_defaulted_heap l h l' b :
  blob_objs h !! l' = Some b →
  blob_objs (defaulted_heap l h) !! l' =
  Some (if decide (l' = l) then default_mime_type b else b).
Proof.
  intros H. unfold defaulted_heap, default_mime_type.
  case_decide as Hl.
  - subst l'. unfold get_blob. rewrite (lookup_total_correct _ _ _ H).
    destruct (mime_type_missing (mime_type b)); [|done].
    simpl. by rewrite lookup_insert_eq.
  - destruct (mime_type_missing _); [|done].
    simpl. by rewrite lookup_insert_ne.
Qed.

(** The heap in which the service is called evolved from the one the
    iteration started in, and the copy is its only new object. *)
Lemma heap_at_call_parts part l h :
  delete (new_part_loc h) (part_objs (heap_at_call part l h)) = part_objs h.
Proof.
  unfold heap_at_call, alloc_part. simpl.
  rewrite new_part_loc_defaulted_heap, part_objs_defaulted_heap.
  rewrite delete_insert_eq. apply delete_id, new_part_loc_fresh.
Qed.

Lemma heap_at_call_blobs part l h :
  blob_objs (heap_at_call part l h) = blob_objs (defaulted_heap l h).
Proof. done. Qed.

(** Under a service that respects the frame, an iteration lets the heap
    evolve. *)
Lemma loop_body_evolves ctx service i part s :
  store_frame service →
  heap_evolves (heap s) (heap (loop_body ctx service i part s).2).
Proof.
  intros [Hb Hp].
  destruct (inline_data (get_part (heap s) part)) as [l|] eqn:H.
  - destruct (loop_body_inline ctx service i part l s H) as (-> & _ & _).
    unfold after_call. split.
    + rewrite <- (heap_at_call_parts part l (heap s)) at 1.
      apply (Hp (args_at_call ctx i l (heap s))).
    + intros l' b Hl'.
      pose proof (blob_objs_defaulted_heap l _ _ _ Hl') as H'.
      rewrite <- heap_at_call_blobs with (part := part) in H'.
      eapply lookup_weaken in H'; [|apply Hb]. rewrite H'.
      case_decide; auto.
  - rewrite loop_body_plain by done. apply heap_evolves_refl.
Qed.

Lemma for_enumerate_evolves ctx service ps i s :
  store_frame service →
  heap_evolves (heap s) (heap (for_enumerate (loop_body ctx service) i ps s).2).
Proof.
  intros Hf. revert i s. induction ps as [|part ps IH]; intros i s.
  - apply heap_evolves_refl.
  - destruct (for_enumerate_cases ctx service i part ps s)
      as [[_ ->]|(class_name & _ & ->)].
    + eapply heap_evolves_trans; [|apply IH]. by apply loop_body_evolves.
    + by apply loop_body_evolves.
Qed.

Lemma defaulted_idemp v : defaulted (defaulted v) = defaulted v.
Proof.
  destruct v as [t [b|]]; unfold defaulted; simpl; [|done].
  by rewrite default_mime_type_idemp.
Qed.

(** A Part of a heap that evolved is observed as before, or as after the
    MIME type check. *)
Lemma view_part_evolves h h' part :
  heap_evolves h h' → wf_part h part →
  view_part h' part = view_part h part ∨
  view_part h' part = defaulted (view_part h part).
Proof.
  intros [Hp Hb] [[x Hx] Hl]. unfold view_part, defaulted, get_part in *.
  rewrite (lookup_total_correct _ _ _ Hx) in *.
  rewrite (lookup_total_correct _ _ _ (lookup_weaken _ _ _ _ Hx Hp)).
  destruct (inline_data x) as [l|]; simpl; [|auto].
  destruct (Hl l eq_refl) as [b Hlb]. unfold get_blob.
  rewrite (lookup_total_correct _ _ _ Hlb).
  destruct (Hb l b Hlb) as [H|H]; rewrite (lookup_total_correct _ _ _ H); auto.
Qed.

Lemma view_part_evolves_defaulted h h' part :
  heap_evolves h h' → wf_part h part →
  defaulted (view_part h' part) = defaulted (view_part h part).
Proof.
  intros He Hw. destruct (view_part_evolves h h' part He Hw) as [->| ->]; [done|].
  apply defaulted_idemp.
Qed.

Lemma wf_part_evolves h h' part :
  heap_evolves h h' → wf_part h part → wf_part h' part.
Proof.
  intros [Hp Hb] [[x Hx] Hl]. unfold wf_part, get_part in *.
  rewrite (lookup_total_correct _ _ _ Hx) in *.
  pose proof (lookup_weaken _ _ _ _ Hx Hp) as Hx'.
  rewrite (lookup_total_correct _ _ _ Hx'). split; [eauto|].
  intros l Hxl. destruct (Hl l Hxl) as [b Hlb].
  destruct (Hb l b Hlb) as [H|H]; eauto.
Qed.

(** After its iteration a Part is observed as after the MIME type check. *)
Lemma loop_body_view ctx service i part s :
  store_frame service → wf_part (heap s) part →
  view_part (heap (loop_body ctx service i part s).2) part =
  defaulted (view_part (heap s) part).
Proof.
  intros Hf Hw. pose proof Hf as [Hb Hp]. pose proof Hw as [[x Hx] Hl].
  destruct (inline_data (get_part (heap s) part)) as [l|] eqn:H.
  - pose proof (loop_body_evolves ctx service i part s Hf) as [Hp' _].
    destruct (loop_body_inline ctx service i part l s H) as (Hh & _ & _).
    unfold view_part, defaulted, get_part in *.
    rewrite (lookup_total_correct _ _ _ Hx) in *.
    rewrite (lookup_total_correct _ _ _ (lookup_weaken _ _ _ _ Hx Hp')).
    rewrite H. simpl. do 2 f_equal.
    destruct (Hl l eq_refl) as [b Hlb].
    pose proof (blob_objs_defaulted_heap l _ _ _ Hlb) as H'.
    rewrite decide_True in H' by done.
    rewrite <- heap_at_call_blobs with (part := part) in H'.
    eapply lookup_weaken in H'; [|apply Hb].
    rewrite Hh. unfold after_call, get_blob.
    by rewrite (lookup_total_correct _ _ _ H'), (lookup_total_correct _ _ _ Hlb).
  - rewrite loop_body_plain by done. unfold view_part, defaulted.
    simpl. by rewrite H.
Qed.

(** After a loop that returned every Part is observed as after the MIME
    type check. *)
Lemma for_enumerate_view ctx service ps i s :
  store_frame service →
  Forall (wf_part (heap s)) ps →
  (for_enumerate (loop_body ctx service) i ps s).1 = inr tt →
  Forall (λ part,
            view_part (heap (for_enumerate (loop_body ctx service) i ps s).2) part =
            defaulted (view_part (heap s) part)) ps.
Proof.
  intros Hf. revert i s. induction ps as [|part ps IH]; intros i s Hw Hr; [done|].
  apply Forall_cons in Hw as [Hw Hws]. revert Hr.
  destruct (for_enumerate_cases ctx service i part ps s)
    as [[_ ->]|(class_name & _ & ->)]; [|done]. intros Hr.
  pose proof (loop_body_evolves ctx service i part s Hf) as He.
  set (s1 := (loop_body ctx service i part s).2) in *.
  constructor.
  - pose proof (for_enumerate_evolves ctx service ps (S i) s1 Hf) as He'.
    rewrite <- (loop_body_view ctx service i part s Hf Hw). fold s1.
    destruct (view_part_evolves _ _ part He' (wf_part_evolves _ _ _ He Hw))
      as [->| ->]; [done|].
    unfold s1. rewrite loop_body_view by done. apply defaulted_idemp.
  - assert (Forall (wf_part (heap s1)) ps) as Hws1.
    { eapply Forall_impl; [exact Hws|]. intros p. by apply wf_part_evolves. }
    specialize (IH (S i) s1 Hws1 Hr).
    rewrite Forall_forall in *. intros p Hin.
    rewrite (IH p Hin). apply view_part_evolves_defaulted; auto.
Qed.

(** The heap evolves over the callback, under a service that respects the
    frame. *)
Lemma callback_evolves ctx service msg s :
  artifact_service ctx = Some service →
  store_frame service →
  heap_evolves (heap s) (heap (on_agent_output_callback ctx msg s).2).
Proof.
  intros Hs Hf. destruct (parts msg) as [ps|] eqn:Hp.
  - destruct (callback_loop ctx service msg ps s Hs Hp) as (-> & _).
    apply (for_enumerate_evolves ctx service ps 0 (set_modified false s).2 Hf).
  - unfold on_agent_output_callback. rewrite Hs, Hp. apply heap_evolves_refl.
Qed.

(** After a callback that returned, under a service that respects the
    frame. *)
Lemma callback_view ctx service msg ps s :
  artifact_service ctx = Some service →
  store_frame service →
  parts msg = Some ps →
  wf_message (heap s) msg →
  (on_agent_output_callback ctx msg s).1 = inr None →
  Forall (λ part,
            view_part (heap (on_agent_output_callback ctx msg s).2) part =
            defaulted (view_part (heap s) part)) ps.
Proof.
  intros Hs Hf Hp Hw Hr. unfold wf_message in Hw. rewrite Hp in Hw. simpl in Hw.
  apply (callback_returns_iff _ _ _ _ _ Hs Hp) in Hr.
  unfold arrives in Hr. rewrite firstn_all in Hr.
  destruct (callback_loop ctx service msg ps s Hs Hp) as (-> & _).
  by apply (for_enumerate_view ctx service ps 0 (set_modified false s).2).
Qed.

(** A Part at an index the loop arrives at is observed after the callback
    as after the MIME type check, however its iteration ended. *)
Lemma view_part_arrived ctx service msg ps i part s :
  artifact_service ctx = Some service →
  store_frame service →
  parts msg = Some ps →
  ps !! i = Some part →
  wf_part (heap s) part →
  arrives ctx service ps i s →
  view_part (heap (on_agent_output_callback ctx msg s).2) part =
  defaulted (view_part (heap s) part).
Proof.
  intros Hs Hf Hp Hi Hw Ha.
  destruct (callback_loop ctx service msg ps s Hs Hp) as (-> & _).
  destruct (loop_after_iteration ctx service ps i part s Ha Hi) as (ps' & ->).
  set (s_i := loop_state ctx service ps i s).
  assert (He : heap_evolves (heap s) (heap s_i)).
  { apply (for_enumerate_evolves ctx service (take i ps) 0 (set_modified false s).2 Hf). }
  pose proof (wf_part_evolves _ _ _ He Hw) as Hw'.
  pose proof (loop_body_evolves ctx service i part s_i Hf) as He'.
  pose proof (for_enumerate_evolves ctx service ps' (S i)
    (loop_body ctx service i part s_i).2 Hf) as He''.
  destruct (view_part_evolves _ _ part He'' (wf_part_evolves _ _ _ He' Hw'))
    as [->| ->]; rewrite loop_body_view by done; rewrite ?defaulted_idemp;
    by apply view_part_evolves_defaulted.
Qed.

End Frame.

(** ** The claims on the caller's message *)

Section Message.

Context {Σ : Type}.
Implicit Types (ctx : InvocationContext Σ) (service : ArtifactService Σ).
Implicit Types (s : State Σ) (h : Heap) (b : Blob) (ps : list loc).

(** X8. What the caller observes, exactly.  Under a service that writes no
    object of the message, the caller observes after a callback that
    returned the Parts it passed, in the same order, with the same text, data
    and display name; the MIME type of a Part with inline data is the one it
    had, except that an absent or blank one has become [text/plain].  Without
    a service nothing changes.  After a callback that raised, each Part is
    observed as it was or with that one change. *)
Theorem message_unchanged_up_to_mime_type ctx msg s :
  (∀ service, artifact_service ctx = Some service → store_frame service) →
  wf_message (heap s) msg →
  ((on_agent_output_callback ctx msg s).1 = inr None →
   view (heap (on_agent_output_callback ctx msg s).2) msg =
   match artifact_service ctx with
   | Some _ => map defaulted <$> view (heap s) msg
   | None => view (heap s) msg
   end) ∧
  (∀ part, part ∈ default [] (parts msg) →
     view_part (heap (on_agent_output_callback ctx msg s).2) part =
       view_part (heap s) part ∨
     view_part (heap (on_agent_output_callback ctx msg s).2) part =
       defaulted (view_part (heap s) part)).
Proof.
  intros Hf Hw. destruct (artifact_service ctx) as [service|] eqn:Hs.
  - split.
    + intros Hr. unfold view. destruct (parts msg) as [ps|] eqn:Hp; [|done]. simpl.
      rewrite map_map. f_equal. apply map_ext_Forall.
      by apply (callback_view ctx service); auto.
    + intros part Hin. apply view_part_evolves.
      * apply (callback_evolves ctx service); auto.
      * unfold wf_message in Hw. rewrite Forall_forall in Hw. auto.
  - unfold on_agent_output_callback. rewrite Hs. rewrite bind_eq, logger_eq.
    split; [done|]. by left.
Qed.

(** C10. Under a service that writes no object of the message, a Part with
    inline data whose MIME type was absent or blank and whose call of
    [save_artifact] raised carries [text/plain] in the caller's message
    after the callback: the default is not taken back. *)
Theorem defaulted_mime_type_kept_after_failure ctx service msg ps i part l s e :
  artifact_service ctx = Some service →
  store_frame service →
  parts msg = Some ps →
  wf_message (heap s) msg →
  ps !! i = Some part →
  inline_data (get_part (heap s) part) = Some l →
  absent_or_blank (mime_type (get_blob (heap s) l)) →
  (∃ c, c ∈ calls_for ctx msg s i ∧ call_outcome c = Raises e) →
  mime_type <$> (view_part (heap (on_agent_output_callback ctx msg s).2) part).2
  = Some (Some "text/plain").
Proof.
  intros Hs Hf Hp Hw Hi Hl Hm (c & Hc & _).
  pose proof (calls_for_arrives ctx service msg ps i s c Hs Hp Hc) as Ha.
  assert (Hwp : wf_part (heap s) part).
  { unfold wf_message in Hw. rewrite Hp in Hw. simpl in Hw.
    rewrite Forall_forall in Hw. apply Hw. by eapply list_elem_of_lookup_2. }
  rewrite (view_part_arrived ctx service msg ps i part s Hs Hf Hp Hi Hwp Ha).
  unfold defaulted, view_part. rewrite Hl. simpl.
  unfold default_mime_type. apply mime_type_missing_spec in Hm. by rewrite Hm.
Qed.

(** C9, amended. The artifact passed to [save_artifact] is a new [Part]
    object, distinct from the Part of the message, with the same fields: its
    [inline_data] refers to the very Blob of the message's Part.  Whatever
    the service writes to the fields of the object it is given, the Part
    object of the message is the same when the loop moves on. *)
Theorem artifact_is_shallow_copy ctx service msg ps i part l s :
  artifact_service ctx = Some service →
  parts msg = Some ps →
  ps !! i = Some part →
  arrives ctx service ps i s →
  let s_i := loop_state ctx service ps i s in
  let s_i' := loop_state ctx service ps (S i) s in
  is_Some (part_objs (heap s_i) !! part) →
  inline_data (get_part (heap s_i) part) = Some l →
  keeps_other_parts service →
  ∃ c, calls_for ctx msg s i = [c] ∧
       part_objs (heap s_i) !! artifact (call_args c) = None ∧
       artifact (call_args c) ≠ part ∧
       call_part c = get_part (heap s_i) part ∧
       inline_data (call_part c) = Some l ∧
       part_objs (heap s_i') !! part = part_objs (heap s_i) !! part.
Proof.
  intros Hs Hp Hi Ha s_i s_i' [x Hx] Hl Hk. eexists. split.
  { by apply (calls_for_inline ctx service msg ps i part l s). }
  cbn [call_args call_part artifact args_at_call]. fold s_i.
  pose proof (new_part_loc_fresh (heap s_i)) as Hfresh.
  repeat split; try done.
  - intros Heq. rewrite Heq in Hfresh. congruence.
  - unfold s_i'. rewrite (loop_state_S _ _ _ _ _ _ Ha Hi). fold s_i.
    destruct (loop_body_inline ctx service i part l s_i Hl) as (-> & _ & _).
    rewrite Hx. unfold after_call.
    eapply lookup_weaken; [|apply (Hk (args_at_call ctx i l (heap s_i)))].
    cbn [artifact args_at_call]. rewrite heap_at_call_parts.
    done.
Qed.


End Message.

(** ** The claims at the example inputs *)

Module Examples.

Import Example.

Lemma quiet_store_frame : store_frame quiet_store.
Proof. split; intros args h n; simpl; [done|]. apply delete_subseteq. Qed.

Lemma failing_store_frame : store_frame failing_store.
Proof. split; intros args h n; simpl; [done|]. apply delete_subseteq. Qed.

Lemma scrubbing_store_keeps_other_parts : keeps_other_parts scrubbing_store.
Proof.
  intros args h n. simpl.
  destruct (inline_data (get_part h (artifact args))); apply delete_subseteq.
Qed.

(** The service only writes what its argument refers to. *)
Lemma scrubbing_store_writes_through_argument :
  writes_through_argument scrubbing_store.
Proof.
  intros args h n. simpl.
  destruct (inline_data (get_part h (artifact args))) as [l|] eqn:H; simpl.
  - split; [done|]. intros l' Hl'. apply lookup_insert_ne. congruence.
  - done.
Qed.

Lemma example_heap_wf : wf_message example_heap example_msg.
Proof.
  repeat constructor; try (eexists; reflexivity);
    vm_compute; intros l [= <-]; eexists; reflexivity.
Qed.

Lemma text_msg_wf : wf_message example_heap text_msg.
Proof.
  repeat constructor; try (eexists; reflexivity);
    vm_compute; intros l [=].
Qed.

(** C1. The message the caller observes is not the one it passed: the MIME
    type of the second Part was [''] and is [text/plain] when the callback
    has returned, against the comment that closes the callback, "output
    remains unchanged". *)
Lemma mime_type_default_changes_message :
  view (heap (on_agent_output_callback (ctx_with quiet_store) example_msg
                example_state).2) example_msg
  ≠ view (heap example_state) example_msg.
Proof. vm_compute. discriminate. Qed.

(** C9 fails as stated: a service that writes only through its argument
    empties the data of the third Part of the message. *)
Lemma scrubbing_store_alters_message :
  writes_through_argument scrubbing_store ∧
  data <$> (view_part (heap (on_agent_output_callback (ctx_with scrubbing_store)
                               example_msg example_state).2) 2).2
  ≠ data <$> (view_part (heap example_state) 2).2.
Proof.
  split; [apply scrubbing_store_writes_through_argument|].
  vm_compute. discriminate.
Qed.



(** The claims instantiated at the example message. *)

Lemma generated_filename_for_unnamed_part_witness :
  ∃ c, calls_for (ctx_with quiet_store) example_msg example_state 1 = [c] ∧
       filename (call_args c) = "artifact_inv1_1.txt".
Proof.
  apply (generated_filename_for_unnamed_part (ctx_with quiet_store) quiet_store
           example_msg [0; 1; 2] 1 1 0 example_state);
    [reflexivity | reflexivity | reflexivity | vm_compute; reflexivity
    | vm_compute; reflexivity | right; vm_compute; reflexivity].
Defined.

Lemma text_plain_for_blank_mime_type_witness :
  ∃ c, calls_for (ctx_with quiet_store) example_msg example_state 1 = [c] ∧
       mime_type <$> call_blob c = Some (Some "text/plain").
Proof.
  apply (text_plain_for_blank_mime_type (ctx_with quiet_store) quiet_store
           example_msg [0; 1; 2] 1 1 0 example_state);
    [reflexivity | reflexivity | reflexivity | vm_compute; reflexivity
    | vm_compute; reflexivity
    | right; exists ""; vm_compute; split; reflexivity].
Defined.

Lemma name_and_mime_type_passed_unmodified_witness :
  ∃ c, calls_for (ctx_with quiet_store) example_msg example_state 2 = [c] ∧
       filename (call_args c) = "poster.jpg" ∧
       mime_type <$> call_blob c = Some (Some "image/jpeg").
Proof.
  apply (name_and_mime_type_passed_unmodified (ctx_with quiet_store) quiet_store
           example_msg [0; 1; 2] 2 2 1 example_state);
    [reflexivity | reflexivity | reflexivity | vm_compute; reflexivity
    | vm_compute; reflexivity
    | vm_compute; reflexivity | discriminate | vm_compute; reflexivity
    | reflexivity].
Defined.

Lemma no_service_one_warning_witness :
  let r := on_agent_output_callback ctx_without example_msg example_state in
  r.1 = inr None ∧
  calls_made ctx_without example_msg example_state = [] ∧
  log r.2 = [(WARNING,
    "Artifact service is not set. SaveArtifactsPlugin will not be enabled.")] ∧
  heap r.2 = example_heap.
Proof.
  apply (no_service_one_warning ctx_without example_msg example_state).
  reflexivity.
Defined.

Lemma no_inline_data_no_call_witness :
  calls_made (ctx_with quiet_store) text_msg example_state = [] ∧
  (on_agent_output_callback (ctx_with quiet_store) text_msg example_state).1
  = inr None.
Proof.
  apply (no_inline_data_no_call (ctx_with quiet_store) text_msg example_state).
  repeat constructor.
Defined.

Lemma failing_store_call_1 :
  ∃ c, c ∈ calls_for (ctx_with failing_store) example_msg example_state 1 ∧
       call_outcome c = Raises (mkException "backend unavailable").
Proof.
  eexists. split; [vm_compute; apply list_elem_of_here | reflexivity].
Defined.




Lemma message_unchanged_up_to_mime_type_witness :
  view (heap (on_agent_output_callback (ctx_with quiet_store) example_msg
                example_state).2) example_msg
  = map defaulted <$> view example_heap example_msg.
Proof.
  destruct (message_unchanged_up_to_mime_type (ctx_with quiet_store) example_msg
              example_state) as [H _].
  - intros service [= <-]. apply quiet_store_frame.
  - apply example_heap_wf.
  - apply H. reflexivity.
Defined.

Lemma defaulted_mime_type_kept_after_failure_witness :
  mime_type <$> (view_part (heap (on_agent_output_callback (ctx_with failing_store)
                                    example_msg example_state).2) 1).2
  = Some (Some "text/plain").
Proof.
  apply (defaulted_mime_type_kept_after_failure (ctx_with failing_store)
           failing_store example_msg [0; 1; 2] 1 1 0 example_state
           (mkException "backend unavailable"));
    [reflexivity | apply failing_store_frame | reflexivity | apply example_heap_wf
    | reflexivity | vm_compute; reflexivity
    | right; exists ""; vm_compute; split; reflexivity
    | apply failing_store_call_1].
Defined.

Lemma artifact_is_shallow_copy_witness :
  ∃ c, calls_for (ctx_with scrubbing_store) example_msg example_state 2 = [c] ∧
       artifact (call_args c) ≠ 2 ∧
       inline_data (call_part c) = Some 1.
Proof.
  destruct (artifact_is_shallow_copy (ctx_with scrubbing_store) scrubbing_store
              example_msg [0; 1; 2] 2 2 1 example_state)
    as (c & H1 & _ & H2 & _ & H3 & _);
    [reflexivity | reflexivity | reflexivity | vm_compute; reflexivity
    | eexists; vm_compute; reflexivity
    | vm_compute; reflexivity | apply scrubbing_store_keeps_other_parts |].
  exists c. auto.
Defined.

End Examples.

(** ** More on the trace of a run *)

Section TraceFacts.

Context {Σ : Type}.
Implicit Types (ctx : InvocationContext Σ) (service : ArtifactService Σ).
Implicit Types (s : State Σ) (h : Heap) (b : Blob) (ps : list loc).

(** The calls made by the callback are those of the loop. *)
Lemma calls_made_loop ctx service msg ps s :
  artifact_service ctx = Some service →
  parts msg = Some ps →
  calls (for_enumerate (loop_body ctx service) 0 ps (set_modified false s).2).2
  = calls s ++ calls_made ctx msg s.
Proof.
  intros Hs Hp. unfold calls_made.
  destruct (callback_loop ctx service msg ps s Hs Hp) as (_ & _ & _ & ->).
  destruct (for_enumerate_calls ctx service ps 0 (set_modified false s).2)
    as (new & -> & _).
  rewrite set_modified_eq. simpl. by rewrite drop_app_length.
Qed.

(** The calls of an iteration: one for a Part with inline data. *)
Lemma loop_body_calls ctx service i part s :
  calls (loop_body ctx service i part s).2 =
  calls s ++
  match inline_data (get_part (heap s) part) with
  | Some l => [record_call i (args_at_call ctx i l (heap s))
                 (heap_at_call part l (heap s)) (after_call ctx service i part l s).2]
  | None => []
  end.
Proof.
  destruct (inline_data (get_part (heap s) part)) as [l|] eqn:H.
  - by destruct (loop_body_inline ctx service i part l s H) as (_ & _ & ->).
  - rewrite loop_body_plain by done. by rewrite app_nil_r.
Qed.

(** A property of every call the loop can issue holds of all calls made. *)
Lemma for_enumerate_calls_Forall ctx service (P : SaveCall → Prop) ps i s :
  (∀ j part l s' o,
     P (record_call j (args_at_call ctx j l (heap s')) (heap_at_call part l (heap s')) o)) →
  ∃ new, calls (for_enumerate (loop_body ctx service) i ps s).2 = calls s ++ new
         ∧ Forall P new.
Proof.
  intros HP. revert i s. induction ps as [|part ps IH]; intros i s.
  - exists []. by rewrite app_nil_r.
  - assert (∃ mid, calls (loop_body ctx service i part s).2 = calls s ++ mid ∧
                   Forall P mid) as (mid & Hmid & Hmid').
    { rewrite loop_body_calls. eexists. split; [done|].
      destruct (inline_data (get_part (heap s) part)); repeat constructor.
      apply HP. }
    destruct (for_enumerate_cases ctx service i part ps s)
      as [[_ ->]|(class_name & _ & ->)].
    + destruct (IH (S i) (loop_body ctx service i part s).2) as (new & -> & Hnew).
      rewrite Hmid, <- app_assoc. eexists; split; [done|]. by apply Forall_app.
    + simpl. eauto.
Qed.

(** X1. Every call of [save_artifact] made by the callback carries the
    application name, the user id and the session id of the invocation
    context. *)
Theorem calls_carry_context ctx msg s c :
  c ∈ calls_made ctx msg s →
  arg_app_name (call_args c) = app_name ctx ∧
  arg_user_id (call_args c) = user_id ctx ∧
  arg_session_id (call_args c) = Session.id (session ctx).
Proof.
  destruct (artifact_service ctx) as [service|] eqn:Hs;
    [|rewrite calls_made_no_service by done; by intros []%elem_of_nil].
  destruct (parts msg) as [ps|] eqn:Hp;
    [|rewrite calls_made_no_parts by done; by intros []%elem_of_nil].
  pose proof (calls_made_loop ctx service msg ps s Hs Hp) as H.
  destruct (for_enumerate_calls_Forall ctx service
    (λ c, arg_app_name (call_args c) = app_name ctx ∧
          arg_user_id (call_args c) = user_id ctx ∧
          arg_session_id (call_args c) = Session.id (session ctx))
    ps 0 (set_modified false s).2) as (new & Hnew & HP); [done|].
  rewrite Hnew, set_modified_eq in H. simpl in H. apply app_inv_head in H.
  subst new. rewrite Forall_forall in HP. apply HP.
Qed.

Lemma for_enumerate_calls_sorted ctx service ps i s :
  ∃ new, calls (for_enumerate (loop_body ctx service) i ps s).2 = calls s ++ new
         ∧ StronglySorted lt (call_index <$> new)
         ∧ Forall (λ c, i ≤ call_index c < i + length ps) new.
Proof.
  revert i s. induction ps as [|part ps IH]; intros i s.
  - exists []. rewrite app_nil_r. repeat split; constructor.
  - assert (∃ mid, calls (loop_body ctx service i part s).2 = calls s ++ mid ∧
                   Forall (λ c, call_index c = i) mid ∧ (length mid ≤ 1)%nat)
      as (mid & Hmid & Hmid' & Hlen).
    { rewrite loop_body_calls. eexists. split; [done|].
      destruct (inline_data (get_part (heap s) part)); simpl;
        split; repeat constructor. }
    assert (Hsorted : ∀ after,
      StronglySorted lt (call_index <$> after) →
      Forall (λ c, S i ≤ call_index c < S i + length ps) after →
      StronglySorted lt (call_index <$> (mid ++ after)) ∧
      Forall (λ c, i ≤ call_index c < i + length (part :: ps)) (mid ++ after)).
    { intros after Hs Ha. split.
      - destruct mid as [|c [|c' mid]]; [done| |simpl in Hlen; lia].
        apply Forall_cons in Hmid' as [Hc _]. simpl.
        constructor; [done|]. apply Forall_fmap.
        eapply Forall_impl; [exact Ha|]. simpl. intros; lia.
      - apply Forall_app. split.
        + eapply Forall_impl; [exact Hmid'|]. simpl. intros; lia.
        + eapply Forall_impl; [exact Ha|]. simpl. intros; lia. }
    destruct (for_enumerate_cases ctx service i part ps s)
      as [[_ ->]|(class_name & _ & ->)].
    + destruct (IH (S i) (loop_body ctx service i part s).2)
        as (after & -> & Hs & Ha).
      rewrite Hmid, <- app_assoc. exists (mid ++ after). split; [done|]. auto.
    + exists mid. simpl. split; [done|].
      rewrite <- (app_nil_r mid). apply Hsorted; constructor.
Qed.

(** X2. Whatever the service does, the calls of [save_artifact] come in the
    order of the Parts and at most one per Part: their loop indices are
    strictly increasing and below the number of Parts. *)
Theorem calls_follow_the_parts ctx msg s :
  StronglySorted lt (call_index <$> calls_made ctx msg s) ∧
  Forall (λ c, call_index c < length (default [] (parts msg))) (calls_made ctx msg s).
Proof.
  destruct (artifact_service ctx) as [service|] eqn:Hs;
    [|rewrite calls_made_no_service by done; split; constructor].
  destruct (parts msg) as [ps|] eqn:Hp;
    [|rewrite calls_made_no_parts by done; split; constructor].
  pose proof (calls_made_loop ctx service msg ps s Hs Hp) as H.
  destruct (for_enumerate_calls_sorted ctx service ps 0 (set_modified false s).2)
    as (new & Hnew & Hsorted & Hbound).
  rewrite Hnew, set_modified_eq in H. simpl in H. apply app_inv_head in H.
  subst new. split; [done|].
  eapply Forall_impl; [exact Hbound|]. simpl. intros; lia.
Qed.

End TraceFacts.

(** ** Generated filenames *)

Lemma string_length_append (a b : string) :
  String.length (a +:+ b) = String.length a + String.length b.
Proof. induction a as [|c a IH]; simpl; [done|]. by rewrite IH. Qed.

Lemma string_append_inj_l (a b c : string) : a +:+ b = a +:+ c → b = c.
Proof. induction a as [|x a IH]; simpl; [done|]. intros [= H]. auto. Qed.

Lemma string_append_inj_r (a b c : string) : a +:+ c = b +:+ c → a = b.
Proof.
  revert b. induction a as [|x a IH]; intros [|y b]; [done| | |].
  - intros H. apply (f_equal String.length) in H.
    rewrite !string_length_append in H. simpl in H. lia.
  - intros H. apply (f_equal String.length) in H.
    rewrite !string_length_append in H. simpl in H. lia.
  - simpl. intros [= -> H]. f_equal. auto.
Qed.

Lemma str_of_int_inj (i j : nat) : Py.str_of_int i = Py.str_of_int j → i = j.
Proof.
  unfold Py.str_of_int. intros H.
  apply DecimalNat.Unsigned.to_uint_inj.
  apply (f_equal NilEmpty.uint_of_string) in H.
  rewrite !NilEmpty.usu in H. congruence.
Qed.

Lemma generated_filename_inj {Σ} (ctx : InvocationContext Σ) (i j : nat) :
  generated_filename ctx i = generated_filename ctx j → i = j.
Proof.
  unfold generated_filename. intros H.
  do 3 apply string_append_inj_l in H.
  apply string_append_inj_r in H. by apply str_of_int_inj.
Qed.

(** X3. Within one invocation the filenames generated for Parts at
    different indices differ: unnamed Parts of a message never share a
    generated filename. *)
Theorem generated_filenames_distinct {Σ} (ctx : InvocationContext Σ) (i j : nat) :
  i ≠ j → generated_filename ctx i ≠ generated_filename ctx j.
Proof. intros Hne H. by apply Hne, (generated_filename_inj ctx). Qed.

(** ** Runs under a service that respects the frame *)

Section FrameFacts.

Context {Σ : Type}.
Implicit Types (ctx : InvocationContext Σ) (service : ArtifactService Σ).
Implicit Types (s : State Σ) (h : Heap) (b : Blob) (ps : list loc).

Lemma get_part_evolves h h' part :
  heap_evolves h h' → wf_part h part → get_part h' part = get_part h part.
Proof.
  intros [Hp _] [[x Hx] _]. unfold get_part.
  by rewrite (lookup_total_correct _ _ _ Hx),
             (lookup_total_correct _ _ _ (lookup_weaken _ _ _ _ Hx Hp)).
Qed.

Lemma get_blob_evolves h h' part l :
  heap_evolves h h' → wf_part h part →
  inline_data (get_part h part) = Some l →
  get_blob h' l = get_blob h l ∨ get_blob h' l = default_mime_type (get_blob h l).
Proof.
  intros [_ Hb] [_ Hl] H. destruct (Hl l H) as [b Hlb]. unfold get_blob.
  rewrite (lookup_total_correct _ _ _ Hlb).
  destruct (Hb l b Hlb) as [H'|H']; rewrite (lookup_total_correct _ _ _ H'); auto.
Qed.

Lemma chosen_filename_default ctx i b :
  chosen_filename ctx i (default_mime_type b) = chosen_filename ctx i b.
Proof.
  unfold chosen_filename, default_mime_type.
  by destruct (mime_type_missing (mime_type b)).
Qed.

Lemma default_mime_type_not_missing b :
  mime_type_missing (mime_type (default_mime_type b)) = false.
Proof.
  unfold default_mime_type.
  by destruct (mime_type_missing (mime_type b)) eqn:E.
Qed.

Lemma loop_body_planned ctx service i part ps s h :
  store_frame service →
  heap_evolves h (heap s) →
  wf_part h part →
  ∃ mid, calls (loop_body ctx service i part s).2 = calls s ++ mid ∧
         planned_calls ctx h i (part :: ps) =
         (call_summary <$> mid) ++ planned_calls ctx h (S i) ps.
Proof.
  intros Hf He Hw.
  pose proof (get_part_evolves _ _ _ He Hw) as Hpart.
  simpl. destruct (inline_data (get_part h part)) as [l|] eqn:H.
  - assert (inline_data (get_part (heap s) part) = Some l) as H'
      by by rewrite Hpart.
    destruct (loop_body_inline ctx service i part l s H') as (_ & _ & ->).
    rewrite record_call_at_call by done.
    eexists; split; [done|]. simpl. f_equal.
    unfold call_summary. simpl. rewrite Hpart.
    destruct (get_blob_evolves _ _ _ _ He Hw H) as [-> | ->]; [done|].
    by rewrite chosen_filename_default, default_mime_type_idemp.
  - rewrite loop_body_plain by by rewrite Hpart.
    exists []. by rewrite app_nil_r.
Qed.

Lemma for_enumerate_planned ctx service ps i s h :
  store_frame service →
  heap_evolves h (heap s) →
  Forall (wf_part h) ps →
  ∃ new, calls (for_enumerate (loop_body ctx service) i ps s).2 = calls s ++ new
         ∧ (call_summary <$> new) `prefix_of` planned_calls ctx h i ps
         ∧ ((for_enumerate (loop_body ctx service) i ps s).1 = inr tt →
            call_summary <$> new = planned_calls ctx h i ps).
Proof.
  intros Hf. revert i s. induction ps as [|part ps IH]; intros i s He Hw.
  - exists []. by rewrite app_nil_r.
  - apply Forall_cons in Hw as [Hw Hws].
    assert (heap_evolves h (heap (loop_body ctx service i part s).2)) as He'.
    { eapply heap_evolves_trans; [exact He|]. by apply loop_body_evolves. }
    destruct (loop_body_planned ctx service i part ps s h Hf He Hw)
      as (mid & Hmid & ->).
    destruct (for_enumerate_cases ctx service i part ps s)
      as [[_ ->]|(class_name & _ & ->)].
    + destruct (IH (S i) _ He' Hws) as (new & -> & Hpre & Heq).
      exists (mid ++ new). rewrite Hmid, <- app_assoc, fmap_app.
      split; [done|]. split; [by apply prefix_app|].
      intros Hr. by rewrite Heq.
    + exists mid. simpl. split; [done|]. split; [by apply prefix_app_r|done].
Qed.

(** X4. Under a service that writes no object of the message, the calls of
    [save_artifact] are settled by the message as it was passed: one call
    for each Part with inline data, in the order of the Parts, with the
    filename chosen from the display name the Part had, an artifact with
    the fields of the Part, and a Blob that went through the MIME type
    check.  These are the calls of a callback that returned; those of a
    callback that raised are the first of them. *)
Theorem calls_determined_by_message ctx service msg ps s :
  artifact_service ctx = Some service →
  store_frame service →
  parts msg = Some ps →
  wf_message (heap s) msg →
  ((on_agent_output_callback ctx msg s).1 = inr None →
   call_summary <$> calls_made ctx msg s = planned_calls ctx (heap s) 0 ps) ∧
  (call_summary <$> calls_made ctx msg s) `prefix_of` planned_calls ctx (heap s) 0 ps.
Proof.
  intros Hs Hf Hp Hw. unfold wf_message in Hw. rewrite Hp in Hw. simpl in Hw.
  pose proof (calls_made_loop ctx service msg ps s Hs Hp) as H.
  destruct (for_enumerate_planned ctx service ps 0 (set_modified false s).2 (heap s))
    as (new & Hnew & Hpre & Hplan); [done|apply heap_evolves_refl|done|].
  rewrite Hnew, set_modified_eq in H. simpl in H. apply app_inv_head in H.
  subst new. split; [|done].
  intros Hr. apply Hplan.
  apply (callback_returns_iff _ _ _ _ _ Hs Hp) in Hr.
  unfold arrives in Hr. by rewrite firstn_all in Hr.
Qed.

(** X5. Under a service that writes no object of the message, no Part of
    the message is left with a missing MIME type when the callback has
    returned, and a second run of the callback on the same message leaves
    the message as the first run left it. *)
Theorem mime_types_set_once ctx service msg ps s :
  artifact_service ctx = Some service →
  store_frame service →
  parts msg = Some ps →
  wf_message (heap s) msg →
  (on_agent_output_callback ctx msg s).1 = inr None →
  let s' := (on_agent_output_callback ctx msg s).2 in
  Forall (λ part, ∀ l, inline_data (get_part (heap s') part) = Some l →
                       mime_type_missing (mime_type (get_blob (heap s') l)) = false) ps ∧
  view (heap (on_agent_output_callback ctx msg s').2) msg = view (heap s') msg.
Proof.
  intros Hs Hf Hp Hw Hr s'.
  pose proof (callback_view ctx service msg ps s Hs Hf Hp Hw Hr) as Hv. fold s' in Hv.
  pose proof (callback_evolves ctx service msg s Hs Hf) as He. fold s' in He.
  assert (wf_message (heap s') msg) as Hw'.
  { unfold wf_message in *. eapply Forall_impl; [exact Hw|].
    intros p. by apply wf_part_evolves. }
  split.
  - rewrite Forall_forall in *. intros part Hin l Hl.
    specialize (Hv part Hin). unfold view_part, defaulted in Hv. simpl in Hv.
    rewrite Hl in Hv. simpl in Hv.
    destruct (inline_data (get_part (heap s) part)); simpl in Hv; [|congruence].
    injection Hv as _ ->. apply default_mime_type_not_missing.
  - pose proof (callback_evolves ctx service msg s' Hs Hf) as He'.
    unfold view. rewrite Hp. simpl. f_equal. apply map_ext_Forall.
    unfold wf_message in Hw'. rewrite Hp in Hw'. simpl in Hw'.
    rewrite Forall_forall in *. intros part Hin.
    destruct (view_part_evolves _ _ part He' (Hw' part Hin)) as [->| ->]; [done|].
    rewrite (Hv part Hin). apply defaulted_idemp.
Qed.

(** X6. On a message whose Parts all are plain, a callback that has a
    service leaves no trace: heap, service state and log are as before. *)
Theorem plain_message_leaves_no_trace ctx msg s :
  is_Some (artifact_service ctx) →
  Forall (λ part, inline_data (get_part (heap s) part) = None)
         (default [] (parts msg)) →
  let s' := (on_agent_output_callback ctx msg s).2 in
  heap s' = heap s ∧ store_st s' = store_st s ∧ log s' = log s.
Proof.
  intros [service Hs] H s'. subst s'.
  destruct (parts msg) as [ps|] eqn:Hp.
  - destruct (callback_loop ctx service msg ps s Hs Hp) as (-> & -> & -> & _).
    by rewrite for_enumerate_plain.
  - unfold on_agent_output_callback. by rewrite Hs, Hp.
Qed.

End FrameFacts.

(** ** Error records *)

Section ErrorFacts.

Context {Σ : Type}.
Implicit Types (ctx : InvocationContext Σ) (service : ArtifactService Σ).
Implicit Types (s : State Σ) (h : Heap) (b : Blob) (ps : list loc).







End ErrorFacts.

(** ** [config.py] *)

Lemma split_not_nil sep s : Py.split sep s ≠ [].
Proof.
  destruct s as [|c s]; simpl; [done|].
  destruct (Ascii.eqb c sep); [done|]. by destruct (Py.split sep s).
Qed.

Lemma length_split sep s : length (Py.split sep s) = S (Py.count sep s).
Proof.
  induction s as [|c s IH]; simpl; [done|].
  destruct (Ascii.eqb c sep); simpl; [by rewrite IH|].
  destruct (Py.split sep s); simpl in *; [done|]. by rewrite <- IH.
Qed.

Lemma split_count sep s : Forall (λ w, Py.count sep w = 0) (Py.split sep s).
Proof.
  induction s as [|c s IH]; simpl; [by repeat constructor|].
  destruct (Ascii.eqb c sep) eqn:E; [by constructor|].
  destruct (Py.split sep s) as [|w ws]; simpl.
  - repeat constructor. simpl. by rewrite E.
  - apply Forall_cons in IH as [Hw Hws]. constructor; [|done].
    simpl. by rewrite E.
Qed.

Lemma split_no_sep sep w : Py.count sep w = 0 → Py.split sep w = [w].
Proof.
  induction w as [|c w IH]; simpl; [done|].
  destruct (Ascii.eqb c sep); simpl; [done|]. intros H. by rewrite IH.
Qed.

Lemma split_append sep w rest :
  Py.count sep w = 0 →
  Py.split sep (w +:+ String sep rest) = w :: Py.split sep rest.
Proof.
  induction w as [|c w IH]; simpl.
  - by rewrite Ascii.eqb_refl.
  - destruct (Ascii.eqb c sep); simpl; [done|]. intros H. by rewrite IH.
Qed.

Lemma split_join sep ws :
  ws ≠ [] → Forall (λ w, Py.count sep w = 0) ws →
  Py.split sep (Py.join (String sep "") ws) = ws.
Proof.
  intros Hne H. induction H as [|w ws Hw Hws IH]; [done|].
  destruct ws as [|w' ws].
  - by apply split_no_sep.
  - change (Py.join (String sep "") (w :: w' :: ws))
      with (w +:+ String sep (Py.join (String sep "") (w' :: ws))).
    rewrite split_append by done. f_equal. by apply IH.
Qed.

Lemma lstrip_idemp s : Py.lstrip (Py.lstrip s) = Py.lstrip s.
Proof.
  induction s as [|c s IH]; simpl; [done|].
  destruct (Py.isspace c) eqn:E; [done|]. simpl. by rewrite E.
Qed.

Lemma rstrip_idemp s : Py.rstrip (Py.rstrip s) = Py.rstrip s.
Proof.
  induction s as [|c s IH]; simpl; [done|].
  destruct (Py.rstrip s) as [|d r] eqn:E.
  - destruct (Py.isspace c) eqn:Ec; simpl; [done|]. by rewrite Ec.
  - remember (String d r) as t. simpl. rewrite IH. subst t. reflexivity.
Qed.

Lemma lstrip_strip s : Py.lstrip (Py.strip s) = Py.strip s.
Proof.
  unfold Py.strip. induction s as [|c s IH]; simpl; [done|].
  destruct (Py.isspace c) eqn:E; [done|]. simpl.
  destruct (Py.rstrip s); rewrite ?E; simpl; by rewrite E.
Qed.

Lemma rstrip_strip s : Py.rstrip (Py.strip s) = Py.strip s.
Proof. apply rstrip_idemp. Qed.

Lemma count_lstrip x s : (Py.count x (Py.lstrip s) ≤ Py.count x s)%nat.
Proof.
  induction s as [|c s IH]; simpl; [done|].
  destruct (Py.isspace c); simpl; lia.
Qed.

Lemma count_rstrip x s : (Py.count x (Py.rstrip s) ≤ Py.count x s)%nat.
Proof.
  induction s as [|c s IH]; simpl; [done|].
  destruct (Py.rstrip s); simpl in *; [destruct (Py.isspace c); simpl|]; lia.
Qed.

Lemma strip_clean_origin w :
  Py.count "," w = 0 → config.clean_origin (Py.strip w).
Proof.
  intros H. split; [apply lstrip_strip|]. split; [apply rstrip_strip|].
  unfold Py.strip.
  pose proof (count_rstrip "," (Py.lstrip w)). pose proof (count_lstrip "," w). lia.
Qed.

Lemma clean_origin_strip o : config.clean_origin o → Py.strip o = o.
Proof. intros (H1 & H2 & _). unfold Py.strip. by rewrite H1. Qed.

(** X9. [ALLOWED_ORIGINS] is never empty: it has one origin more than the
    setting has commas, so an empty setting gives one empty origin. *)
Theorem allowed_origins_length (environ : gmap string string) :
  config.ALLOWED_ORIGINS environ ≠ [] ∧
  length (config.ALLOWED_ORIGINS environ)
  = S (Py.count "," (config.ALLOWED_ORIGINS_STR environ)).
Proof.
  unfold config.ALLOWED_ORIGINS. rewrite length_map, length_split. split; [|done].
  pose proof (split_not_nil "," (config.ALLOWED_ORIGINS_STR environ)).
  by destruct (Py.split _ _).
Qed.

(** X10. No origin in [ALLOWED_ORIGINS] has whitespace at either end, and
    none holds a comma. *)
Theorem allowed_origins_clean (environ : gmap string string) :
  Forall config.clean_origin (config.ALLOWED_ORIGINS environ).
Proof.
  unfold config.ALLOWED_ORIGINS. apply Forall_map.
  eapply Forall_impl; [apply split_count|]. intros w. apply strip_clean_origin.
Qed.

(** X11. A setting made of items joined by commas is read back item by
    item, each stripped of the whitespace around it; items that are clean
    origins are read back as they are. *)
Theorem allowed_origins_of_join (environ : gmap string string) (items : list string) :
  items ≠ [] →
  Forall (λ w, Py.count "," w = 0) items →
  let environ' := <["ALLOWED_ORIGINS" := Py.join "," items]> environ in
  config.ALLOWED_ORIGINS environ' = map Py.strip items ∧
  (Forall config.clean_origin items → config.ALLOWED_ORIGINS environ' = items).
Proof.
  intros Hne H environ'.
  assert (config.ALLOWED_ORIGINS environ' = map Py.strip items) as Heq.
  { unfold config.ALLOWED_ORIGINS, config.ALLOWED_ORIGINS_STR, config.getenv, environ'.
    rewrite lookup_insert_eq. by rewrite split_join. }
  split; [done|]. intros Hc. rewrite Heq.
  rewrite <- (map_id items) at 2. apply map_ext_Forall.
  eapply Forall_impl; [exact Hc|]. intros o. apply clean_origin_strip.
Qed.

Lemma lower_char_t c : Py.lower_char c = "t"%char ↔ c = "t"%char ∨ c = "T"%char.
Proof.
  destruct c as [[] [] [] [] [] [] [] []]; vm_compute;
    (split; [intros [=]; auto | intros [[=]|[=]]; done]).
Qed.

Lemma lower_char_r c : Py.lower_char c = "r"%char ↔ c = "r"%char ∨ c = "R"%char.
Proof.
  destruct c as [[] [] [] [] [] [] [] []]; vm_compute;
    (split; [intros [=]; auto | intros [[=]|[=]]; done]).
Qed.

Lemma lower_char_u c : Py.lower_char c = "u"%char ↔ c = "u"%char ∨ c = "U"%char.
Proof.
  destruct c as [[] [] [] [] [] [] [] []]; vm_compute;
    (split; [intros [=]; auto | intros [[=]|[=]]; done]).
Qed.

Lemma lower_char_e c : Py.lower_char c = "e"%char ↔ c = "e"%char ∨ c = "E"%char.
Proof.
  destruct c as [[] [] [] [] [] [] [] []]; vm_compute;
    (split; [intros [=]; auto | intros [[=]|[=]]; done]).
Qed.

(** X12. Cloud logging is enabled exactly when [ENABLE_CLOUD_LOGGING] is
    set to the four letters of "true", each in either case; an unset
    variable, or whitespace around the word, leaves it disabled. *)
Theorem enable_cloud_logging_iff (environ : gmap string string) :
  config.ENABLE_CLOUD_LOGGING environ = true ↔
  ∃ t r u e : ascii,
    environ !! "ENABLE_CLOUD_LOGGING" = Some (String t (String r (String u (String e "")))) ∧
    (t = "t" ∨ t = "T")%char ∧ (r = "r" ∨ r = "R")%char ∧
    (u = "u" ∨ u = "U")%char ∧ (e = "e" ∨ e = "E")%char.
Proof.
  unfold config.ENABLE_CLOUD_LOGGING, config.getenv.
  rewrite String.eqb_eq.
  destruct (environ !! "ENABLE_CLOUD_LOGGING") as [v|]; simpl.
  - split.
    + destruct v as [|t [|r [|u [|e [|x v]]]]]; simpl; try discriminate.
      intros [= Ht Hr Hu He]. exists t, r, u, e.
      rewrite <- lower_char_t, <- lower_char_r, <- lower_char_u, <- lower_char_e.
      done.
    + intros (t & r & u & e & [= ->] & Ht & Hr & Hu & He). simpl.
      apply lower_char_t in Ht. apply lower_char_r in Hr.
      apply lower_char_u in Hu. apply lower_char_e in He. congruence.
  - split; [discriminate|]. by intros (t & r & u & e & [=] & _).
Qed.

(** X13. Importing the module never overrides a variable that is set: the
    environment afterwards holds every binding it held.  If the import
    succeeds, that is if the value of [PORT] is read as an integer, the
    environment holds [GOOGLE_GENAI_USE_VERTEXAI] with the value it had or
    else "1".  If [int] raises on the value of [PORT], the import raises and
    the environment is as it was.  A second import changes nothing. *)
Theorem import_keeps_environ (int : string → Exception + Z)
    (environ : gmap string string) :
  environ ⊆ config.environ_after_import int environ ∧
  (∀ port, config.PORT int environ = inr port →
     (config.import_module int environ).1 = inr tt ∧
     config.environ_after_import int environ !! "GOOGLE_GENAI_USE_VERTEXAI"
     = Some (config.getenv environ "GOOGLE_GENAI_USE_VERTEXAI" "1")) ∧
  (∀ e, config.PORT int environ = inl e →
     (config.import_module int environ).1 = inl e ∧
     config.environ_after_import int environ = environ) ∧
  config.environ_after_import int (config.environ_after_import int environ)
  = config.environ_after_import int environ.
Proof.
  assert (Hport : ∀ v, config.PORT int
                         (<["GOOGLE_GENAI_USE_VERTEXAI" := v]> environ)
                       = config.PORT int environ).
  { intros v. unfold config.PORT, config.getenv.
    by rewrite lookup_insert_ne. }
  unfold config.environ_after_import, config.import_module.
  destruct (config.PORT int environ) as [e|port] eqn:HP; simpl.
  - rewrite HP. split; [done|]. split; [intros port [=]|]. split; [|done].
    by intros e' [= ->].
  - split; [|split; [|split; [intros e [=]|]]].
    + unfold config.setdefault.
      destruct (environ !! "GOOGLE_GENAI_USE_VERTEXAI") eqn:E; [done|].
      by apply insert_subseteq.
    + intros port' _. split; [done|]. unfold config.setdefault, config.getenv.
      destruct (environ !! "GOOGLE_GENAI_USE_VERTEXAI") as [v|] eqn:E; [done|].
      by rewrite lookup_insert_eq.
    + unfold config.setdefault.
      destruct (environ !! "GOOGLE_GENAI_USE_VERTEXAI") as [v|] eqn:E.
      * rewrite HP. simpl. by rewrite E.
      * rewrite Hport. simpl. by rewrite lookup_insert_eq.
Qed.

(** ** [server.py] *)

Lemma startswith_spec p s :
  Py.startswith p s = true ↔ ∃ after, s = p +:+ after.
Proof.
  revert s. induction p as [|a p IH]; intros s; simpl.
  - split; [eauto|done].
  - destruct s as [|b s].
    + split; [done|]. by intros [after [=]].
    + rewrite andb_true_iff, Ascii.eqb_eq, IH. split.
      * intros [-> [after ->]]. eauto.
      * intros [after [= -> ->]]. eauto.
Qed.

Lemma contains_spec p s : Py.contains p s = true ↔ server.occurs_in p s.
Proof.
  unfold server.occurs_in. induction s as [|c s IH].
  - simpl. rewrite orb_false_r, startswith_spec. split.
    + intros [after H]. by exists "", after.
    + intros ([|x before] & after & H); [eauto|done].
  - change (Py.contains p (String c s))
      with (Py.startswith p (String c s) || Py.contains p s).
    rewrite orb_true_iff, startswith_spec, IH. split.
    + intros [[after H]|(before & after & H)].
      * by exists "", after.
      * exists (String c before), after. simpl. by rewrite H.
    + intros ([|x before] & after & H); [left; eauto|].
      right. injection H as _ H. eauto.
Qed.

Lemma should_skip_spec path :
  server.should_skip path = true ↔
  ∃ pattern, pattern ∈ server.skip_patterns ∧ server.occurs_in pattern path.
Proof.
  unfold server.should_skip. rewrite existsb_exists.
  split; intros (pattern & Hin & H); exists pattern.
  - by rewrite list_elem_of_In, <- contains_spec.
  - by rewrite <- list_elem_of_In, contains_spec.
Qed.

Opaque server.should_skip.

(** The second loop, from any point on. *)
Lemma fold_select_step routes safe skipped_paths :
  fold_left server.select_step routes (safe, skipped_paths) =
  (safe ++ List.filter (λ r, negb (server.skipped r)) routes,
   skipped_paths ++
   omap server.skipped_path routes).
Proof.
  revert safe skipped_paths. induction routes as [|route routes IH];
    intros safe skipped_paths; simpl.
  - by rewrite !app_nil_r.
  - destruct route as [path|name]; simpl.
    + destruct (server.should_skip path); simpl; rewrite IH, <- ?app_assoc; done.
    + by rewrite IH, <- app_assoc.
Qed.

Lemma length_filter_omap routes :
  length (List.filter (λ r, negb (server.skipped r)) routes) +
  length (omap server.skipped_path routes) = length routes.
Proof.
  induction routes as [|[path|name] routes IH]; [done| |].
  - simpl. destruct (server.should_skip path); simpl;
      change (list_omap _ _ server.skipped_path routes)
        with (omap server.skipped_path routes); lia.
  - simpl. change (list_omap _ _ server.skipped_path routes)
             with (omap server.skipped_path routes). lia.
Qed.

Lemma skipped_paths_filter routes :
  server.APIRoute <$> omap server.skipped_path routes
  = List.filter server.skipped routes.
Proof.
  induction routes as [|[path|name] routes IH]; simpl; [done| |exact IH].
  destruct (server.should_skip path); simpl; [f_equal|]; exact IH.
Qed.

(** X14. The second loop of [custom_openapi] sorts every route into one of
    two lists: [safe_routes] holds, in their order, the routes that are not
    skipped, [skipped_routes] holds the others, and no route is lost. *)
Theorem select_routes_partition (routes : list server.Route) :
  let '(safe_routes, skipped_routes) := server.select_routes routes in
  safe_routes = List.filter (λ r, negb (server.skipped r)) routes ∧
  server.APIRoute <$> skipped_routes = List.filter server.skipped routes ∧
  length safe_routes + length skipped_routes = length routes.
Proof.
  unfold server.select_routes. rewrite fold_select_step. simpl.
  split; [done|]. split; [apply skipped_paths_filter|apply length_filter_omap].
Qed.

(** X15. A route is handed to [get_openapi] exactly when it is a route of
    the application and, if it is an API route, none of the seven patterns
    occurs anywhere in its path; other kinds of routes are always kept. *)
Theorem safe_route_iff (routes : list server.Route) (route : server.Route) :
  route ∈ (server.select_routes routes).1 ↔
  route ∈ routes ∧
  ∀ path, route = server.APIRoute path →
          ∀ pattern, pattern ∈ server.skip_patterns → ¬ server.occurs_in pattern path.
Proof.
  unfold server.select_routes. rewrite fold_select_step. simpl.
  rewrite list_elem_of_In, filter_In, <- list_elem_of_In, negb_true_iff.
  apply and_iff_compat_l. destruct route as [path|name]; simpl.
  - rewrite <- not_true_iff_false, should_skip_spec. split.
    + intros H p [= <-] pattern Hin Ho. apply H. eauto.
    + intros H (pattern & Hin & Ho). by apply (H path eq_refl pattern).
  - split; [by intros _ path [=]|done].
Qed.

Lemma string_append_assoc (a b c : string) :
  (a +:+ b) +:+ c = a +:+ (b +:+ c).
Proof.
  induction a as [|k a IH]; [done|].
  change (String k ((a +:+ b) +:+ c) = String k (a +:+ (b +:+ c))).
  by rewrite IH.
Qed.

Lemma occurs_in_trans a b c :
  server.occurs_in a b → server.occurs_in b c → server.occurs_in a c.
Proof.
  intros (x & y & ->) (u & v & ->). exists (u +:+ x), (y +:+ v).
  by rewrite !string_append_assoc.
Qed.

(** X16. A path in which neither "/eval" nor "/tools/mcp" occurs is never
    skipped; this holds of "/health" and "/info". *)
Theorem path_without_eval_or_mcp_kept (path : string) :
  ¬ server.occurs_in "/eval" path →
  ¬ server.occurs_in "/tools/mcp" path →
  server.should_skip path = false.
Proof.
  intros He Hm. apply not_true_iff_false. rewrite should_skip_spec.
  intros (pattern & Hin & Ho). unfold server.skip_patterns in Hin.
  repeat (apply elem_of_cons in Hin as [->|Hin]); [by apply Hm|..];
    try (apply He; eapply occurs_in_trans; [|exact Ho];
         by eexists "", _).
  by apply elem_of_nil in Hin.
Qed.

Lemma filter_kept_idemp routes :
  List.filter (λ r, negb (server.skipped r))
    (List.filter (λ r, negb (server.skipped r)) routes)
  = List.filter (λ r, negb (server.skipped r)) routes.
Proof.
  induction routes as [|r routes IH]; simpl; [done|].
  destruct (negb (server.skipped r)) eqn:E; simpl; [|done].
  rewrite E. f_equal. exact IH.
Qed.

Lemma omap_kept_nil routes :
  omap server.skipped_path (List.filter (λ r, negb (server.skipped r)) routes) = [].
Proof.
  induction routes as [|[path|name] routes IH]; simpl; [done| |exact IH].
  destruct (server.should_skip path) eqn:E; simpl; [exact IH|].
  rewrite E. exact IH.
Qed.

(** X17. Selecting again among the routes that were kept skips nothing:
    the selection is idempotent. *)
Theorem select_routes_idemp (routes : list server.Route) :
  server.select_routes (server.select_routes routes).1
  = ((server.select_routes routes).1, []).
Proof.
  unfold server.select_routes. rewrite !fold_select_step.
  cbn [fst app]. by rewrite filter_kept_idemp, omap_kept_nil.
Qed.

Transparent server.should_skip.

Lemma dict_set_not_nil key value d : server.dict_set key value d ≠ [].
Proof. destruct d as [|[k v] d]; simpl; [done|]. by destruct (String.eqb k key). Qed.

Lemma dict_get_set key value d :
  server.dict_get key (server.dict_set key value d) = Some value.
Proof.
  induction d as [|[k v] d IH]; simpl.
  - by rewrite String.eqb_refl.
  - destruct (String.eqb k key) eqn:E; simpl; by rewrite E.
Qed.

Lemma dict_get_set_ne key key' value d :
  key ≠ key' →
  server.dict_get key' (server.dict_set key value d) = server.dict_get key' d.
Proof.
  intros Hne. induction d as [|[k v] d IH]; simpl.
  - destruct (String.eqb key key') eqn:E; [|done].
    by apply String.eqb_eq in E.
  - destruct (String.eqb k key) eqn:E; simpl; [|by rewrite IH].
    apply String.eqb_eq in E. subst k.
    destruct (String.eqb key key') eqn:E'; [|done].
    by apply String.eqb_eq in E'.
Qed.

Lemma dict_set_keys key value d :
  is_Some (server.dict_get key d) →
  (server.dict_set key value d).*1 = d.*1.
Proof.
  induction d as [|[k v] d IH]; simpl; [by intros [? [=]]|].
  destruct (String.eqb k key) eqn:E; simpl; [done|]. intros H.
  f_equal. by apply IH.
Qed.

Section CustomOpenapiFacts.

Variable get_openapi : server.OpenAPIArgs → Exception + list (string * server.json).

Lemma generate_not_nil safe_routes openapi_schema :
  server.generate get_openapi safe_routes = inr openapi_schema → openapi_schema ≠ [].
Proof.
  unfold server.generate, server.add_logo.
  destruct (get_openapi _) as [e|schema]; [done|].
  destruct (server.dict_get "info" schema) as [[]|]; try done.
  intros [= <-]. apply dict_set_not_nil.
Qed.

(** The schema is never empty, so that it is found again. *)
Lemma custom_openapi_cached app log :
  let '(schema, app', _) := server.custom_openapi get_openapi app log in
  schema ≠ [] ∧ server.openapi_schema app' = Some schema ∧
  server.app_routes app' = server.app_routes app.
Proof.
  unfold server.custom_openapi.
  destruct (server.openapi_schema app) as [[|kv cached]|] eqn:E;
    [| by rewrite E | ];
    destruct (server.select_routes _) as [safe_routes skipped_routes];
    destruct (server.generate _ _) as [e|schema] eqn:Eg; simpl;
    repeat split; try done; by eapply generate_not_nil.
Qed.

(** X18. [custom_openapi] generates the schema once: the schema it returns
    is not empty and is stored in the application, and a later call
    returns the same schema, consults [get_openapi] no more, whatever it
    would return now, changes nothing and logs nothing. *)
Theorem custom_openapi_generates_once
    (get_openapi' : server.OpenAPIArgs → Exception + list (string * server.json))
    (app : server.App) (log log' : list server.Event) :
  let '(schema, app', _) := server.custom_openapi get_openapi app log in
  schema ≠ [] ∧
  server.openapi_schema app' = Some schema ∧
  server.custom_openapi get_openapi' app' log' = (schema, app', log').
Proof.
  pose proof (custom_openapi_cached app log) as H.
  destruct (server.custom_openapi get_openapi app log) as [[schema app'] log''].
  destruct H as (Hne & Hs & _). split; [done|]. split; [done|].
  unfold server.custom_openapi. rewrite Hs. by destruct schema.
Qed.


(** X20. When no schema is stored and [get_openapi] returns a schema with
    an "info" object, [custom_openapi] returns that schema with the logo
    added to "info": the keys and their order, every other entry of the
    schema and every other entry of "info" are as [get_openapi] gave
    them. *)
Theorem custom_openapi_adds_logo (app : server.App) (log : list server.Event)
    generated info :
  server.openapi_schema app = None ∨ server.openapi_schema app = Some [] →
  get_openapi (server.openapi_args (server.select_routes (server.app_routes app)).1)
  = inr generated →
  server.dict_get "info" generated = Some (server.JDict info) →
  let '(schema, app', log') := server.custom_openapi get_openapi app log in
  schema.*1 = generated.*1 ∧
  (∀ key, key ≠ "info" → server.dict_get key schema = server.dict_get key generated) ∧
  ∃ info', server.dict_get "info" schema = Some (server.JDict info') ∧
           server.dict_get "x-logo" info' = Some server.x_logo ∧
           ∀ key, key ≠ "x-logo" → server.dict_get key info' = server.dict_get key info.
Proof.
  intros Hs Hg Hi. unfold server.custom_openapi.
  destruct (server.select_routes _) as [safe_routes skipped_routes].
  simpl in Hg.
  destruct Hs as [-> | ->]; unfold server.generate, server.add_logo;
    rewrite Hg, Hi;
    (split; [apply dict_set_keys; by rewrite Hi|];
     split; [intros key Hne; by apply dict_get_set_ne|];
     eexists; split; [apply dict_get_set|]; split; [apply dict_get_set|];
     intros key Hne; by apply dict_get_set_ne).
Qed.

End CustomOpenapiFacts.

(** ** The further properties at the example inputs *)

Module MoreExamples.

Import Example MoreExample.

Lemma calls_carry_context_witness :
  ∃ c, c ∈ calls_made (ctx_with quiet_store) example_msg example_state ∧
       arg_app_name (call_args c) = "movie_pitch" ∧
       arg_user_id (call_args c) = "user" ∧
       arg_session_id (call_args c) = "session1".
Proof.
  eexists. split;
    [|apply (calls_carry_context (ctx_with quiet_store) example_msg example_state)];
    vm_compute; apply list_elem_of_here.
Defined.

Lemma generated_filenames_distinct_witness :
  "artifact_inv1_1.txt" ≠ "artifact_inv1_2.txt".
Proof.
  apply (generated_filenames_distinct (ctx_with quiet_store) 1 2). lia.
Defined.

Lemma calls_determined_by_message_witness :
  call_summary <$> calls_made (ctx_with quiet_store) example_msg example_state
  = [(1, "artifact_inv1_1.txt", mkPart None (Some 0),
      Some (mkBlob (Some (list_byte_of_string "PNGDATA")) (Some "text/plain") (Some "")));
     (2, "poster.jpg", mkPart None (Some 1),
      Some (mkBlob (Some (list_byte_of_string "JPGDATA")) (Some "image/jpeg")
                   (Some "poster.jpg")))].
Proof.
  destruct (calls_determined_by_message (ctx_with quiet_store) quiet_store
              example_msg [0; 1; 2] example_state) as [H _];
    [reflexivity | apply Examples.quiet_store_frame | reflexivity
    | apply Examples.example_heap_wf |].
  rewrite H; reflexivity.
Defined.

Lemma mime_types_set_once_witness :
  let s' := (on_agent_output_callback (ctx_with quiet_store) example_msg
               example_state).2 in
  view (heap (on_agent_output_callback (ctx_with quiet_store) example_msg s').2)
       example_msg
  = view (heap s') example_msg.
Proof.
  apply (mime_types_set_once (ctx_with quiet_store) quiet_store example_msg
           [0; 1; 2] example_state);
    [reflexivity | apply Examples.quiet_store_frame | reflexivity
    | apply Examples.example_heap_wf | reflexivity].
Defined.

Lemma plain_message_leaves_no_trace_witness :
  let s' := (on_agent_output_callback (ctx_with quiet_store) text_msg
               example_state).2 in
  heap s' = example_heap ∧ store_st s' = 0 ∧ log s' = [].
Proof.
  apply (plain_message_leaves_no_trace (ctx_with quiet_store) text_msg example_state).
  - eexists. reflexivity.
  - repeat constructor.
Defined.



Lemma allowed_origins_of_join_witness :
  config.ALLOWED_ORIGINS
    (<["ALLOWED_ORIGINS" := "http://localhost:3000,https://app.example.org"]> ∅)
  = ["http://localhost:3000"; "https://app.example.org"].
Proof.
  apply (allowed_origins_of_join ∅ ["http://localhost:3000"; "https://app.example.org"]).
  - discriminate.
  - repeat constructor.
  - repeat constructor.
Defined.

Lemma import_keeps_environ_witness :
  config.environ_after_import int_of_digits example_environ
    !! "GOOGLE_GENAI_USE_VERTEXAI" = Some "1" ∧
  config.environ_after_import int_of_digits (<["PORT" := "abc"]> example_environ)
  = <["PORT" := "abc"]> example_environ.
Proof.
  split.
  - apply (import_keeps_environ int_of_digits example_environ) with (port := 8010%Z).
    reflexivity.
  - apply (import_keeps_environ int_of_digits (<["PORT" := "abc"]> example_environ))
      with (e := mkException "invalid literal for int() with base 10: 'abc'").
    reflexivity.
Defined.

Lemma path_without_eval_or_mcp_kept_witness : server.should_skip "/health" = false.
Proof.
  apply path_without_eval_or_mcp_kept;
    rewrite <- contains_spec; vm_compute; discriminate.
Defined.


Lemma custom_openapi_adds_logo_witness :
  ∃ info', server.dict_get "info"
             (server.custom_openapi working_get_openapi example_app []).1.1
           = Some (server.JDict info') ∧
           server.dict_get "x-logo" info' = Some server.x_logo.
Proof.
  pose proof (custom_openapi_adds_logo working_get_openapi example_app [] _ _
                (or_introl eq_refl) eq_refl eq_refl) as H.
  destruct (server.custom_openapi working_get_openapi example_app [])
    as [[schema app'] log'].
  destruct H as (_ & _ & info' & H1 & H2 & _). eauto.
Defined.

End MoreExamples.
